(** * Local interaction model ([localint.py]): a shallow embedding

    The engine of [localint.py] keeps N agents on a weighted directed graph.
    Every agent plays a best response to the weighted tally of its
    neighbours' current actions.  The Python class mutates one index buffer
    that is shared between the compact action profile
    ([self.current_actions]) and the sparse one-hot matrix
    ([self.current_actions_mixed]); it draws from numpy's process-wide random
    source and raises [ValueError] on bad input.  The embedding below keeps
    these three effects explicit: a world made of the engine object and the
    random source, threaded through a state-and-exception monad. *)

From Stdlib Require Import ZArith String Permutation.
From stdpp Require Import base list strings.

Local Open Scope string_scope.
Local Open Scope nat_scope.
Local Open Scope list_scope.

(** ** Numbers

    The adjacency weights may be integers or floats.  Nothing below relies on
    an algebraic law of the weights, so they are kept abstract: a carrier with
    the operations numpy applies to it. *)

Class Numeric (W : Type) := {
  zero : W;
  add : W -> W -> W;
  mul : W -> W -> W;
  of_int : Z -> W
}.

#[export] Instance Numeric_Z : Numeric Z :=
  {| zero := 0%Z; add := Z.add; mul := Z.mul; of_int := fun z => z |}.

(** ** Exceptions *)

Inductive exn :=
| ValueError (msg : string)
| IndexError.

Inductive outcome (A : Type) :=
| Ok (a : A)
| Raise (e : exn).
Arguments Ok {A} a.
Arguments Raise {A} e.

Definition obind {A B} (o : outcome A) (k : A -> outcome B) : outcome B :=
  match o with
  | Ok a => k a
  | Raise e => Raise e
  end.

#[export] Instance exn_eq_dec : EqDecision exn.
Proof. solve_decision. Defined.

#[export] Instance outcome_eq_dec {A} `{EqDecision A} : EqDecision (outcome A).
Proof. solve_decision. Defined.

(** ** State and exceptions

    A Python method reads and writes the object and the random source and may
    raise.  An exception does not roll anything back: the state a failed call
    leaves behind is part of its result. *)

Definition M (S A : Type) : Type := S -> outcome A * S.

Definition ret {S A} (a : A) : M S A := fun s => (Ok a, s).

Definition bind {S A B} (c : M S A) (k : A -> M S B) : M S B :=
  fun s =>
    match c s with
    | (Ok a, s') => k a s'
    | (Raise e, s') => (Raise e, s')
    end.

Definition lift {S A} (o : outcome A) : M S A := fun s => (o, s).

Notation "'do' x <- c ;; k" := (bind c (fun x => k))
  (at level 10, x name, c at level 99, k at level 200).
Notation "'do_' c ;; k" := (bind c (fun _ => k))
  (at level 10, c at level 99, k at level 200).

(** ** Arrays *)

(** A dense n-dimensional array as [np.asarray] returns it: only its shape
    matters to the constructor. *)
Record ndarray (A : Type) := Ndarray {
  nd_shape : list nat;
  nd_data : list A
}.
Arguments Ndarray {A} nd_shape nd_data.
Arguments nd_shape {A} n.
Arguments nd_data {A} n.

Definition ndim {A} (a : ndarray A) : nat := length (nd_shape a).

(** [np.empty(n, dtype=int)]: the contents are whatever the allocator left;
    zeros stand for them. *)
Definition np_empty (n : nat) : list Z := replicate n 0%Z.

(** [a[i]] and [a[i] = x] on a one-dimensional array or a Python list. *)
Definition getitem {A} (l : list A) (i : nat) : outcome A :=
  match l !! i with
  | Some x => Ok x
  | None => Raise IndexError
  end.

Definition setitem {A} (l : list A) (i : nat) (x : A) : outcome (list A) :=
  if decide (i < length l) then Ok (<[i := x]> l) else Raise IndexError.

(** The right-hand side of a slice assignment [a[:] = v]: a scalar or a
    sequence.  numpy broadcasts a scalar and a sequence of length one, copies a
    sequence of the right length, and raises [ValueError] otherwise. *)
Inductive rhs :=
| Scalar (a : Z)
| Sequence (l : list Z).

Definition broadcast_to (n : nat) (v : rhs) : outcome (list Z) :=
  match v with
  | Scalar a => Ok (replicate n a)
  | Sequence l =>
      if decide (length l = n) then Ok l
      else match l with
           | [a] => Ok (replicate n a)
           | _ => Raise (ValueError "could not broadcast input array")
           end
  end.

(** ** Sparse matrices in compressed-row form

    [scipy.sparse.csr_matrix((data, indices, indptr), shape)]: the stored
    entries of row [i] are [data[indptr[i]:indptr[i+1]]], in the columns
    [indices[indptr[i]:indptr[i+1]]]. *)

Record csr_matrix (A : Type) := Csr {
  data : list A;
  indices : list Z;
  indptr : list nat;
  shape : nat * nat
}.
Arguments Csr {A} data indices indptr shape.
Arguments data {A} c.
Arguments indices {A} c.
Arguments indptr {A} c.
Arguments shape {A} c.

Definition slice {A} (lo hi : nat) (l : list A) : list A :=
  take (hi - lo) (drop lo l).

Definition csr_row {A} (m : csr_matrix A) (i : nat) : list (Z * A) :=
  let lo := nth i (indptr m) 0 in
  let hi := nth (S i) (indptr m) 0 in
  zip (slice lo hi (indices m)) (slice lo hi (data m)).

(** [m[i]]: the 1 x ncols matrix holding row [i]. *)
Definition getrow {A} (m : csr_matrix A) (i : nat) : outcome (csr_matrix A) :=
  if decide (i < fst (shape m)) then
    let lo := nth i (indptr m) 0 in
    let hi := nth (S i) (indptr m) 0 in
    Ok (Csr (slice lo hi (data m)) (slice lo hi (indices m)) [0; hi - lo]
            (1, snd (shape m)))
  else Raise IndexError.

(** The dense entry in column [k] of a row given by its stored entries:
    entries of the same column are summed, a column without entry is zero. *)
Definition col_sum `{Numeric A} (entries : list (Z * A)) (k : nat) : A :=
  foldl (fun acc e => if Z.eqb (fst e) (Z.of_nat k) then add acc (snd e) else acc)
        zero entries.

Definition dense_row `{Numeric A} (ncols : nat) (entries : list (Z * A)) : list A :=
  (fun k => col_sum entries k) <$> seq 0 ncols.

(** [m.toarray()] *)
Definition toarray `{Numeric A} (m : csr_matrix A) : list (list A) :=
  (fun i => dense_row (snd (shape m)) (csr_row m i)) <$> seq 0 (fst (shape m)).

(** The stored entries of row [i] of the product [a.dot(b)]: every stored
    entry (j, w) of row [i] of [a] meets every stored entry (k, d) of row [j]
    of [b]. *)
Definition dot_row `{Numeric W} (a : csr_matrix W) (b : csr_matrix Z) (i : nat)
  : list (Z * W) :=
  csr_row a i ≫= (fun e =>
    if decide (0 <= fst e)%Z
    then (fun f => (fst f, mul (snd e) (of_int (snd f)))) <$> csr_row b (Z.to_nat (fst e))
    else []).

(** [a.dot(b).toarray()] *)
Definition dot_toarray `{Numeric W} (a : csr_matrix W) (b : csr_matrix Z)
  : list (list W) :=
  (fun i => dense_row (snd (shape b)) (dot_row a b i)) <$> seq 0 (fst (shape a)).

(** ** The ambient random source

    [np.random] is process-wide state.  It is modelled as an entropy tape read
    left to right: a draw below [bound] takes the next cell modulo [bound].
    Every sequence of draws numpy can produce is the reading of some tape. *)

Record RandomState := MkRandomState {
  tape : nat -> nat;
  pos : nat
}.

Definition draw (bound : nat) (r : RandomState) : nat * RandomState :=
  (tape r (pos r) `mod` bound, MkRandomState (tape r) (S (pos r))).

Fixpoint draws (bound size : nat) (r : RandomState) : list Z * RandomState :=
  match size with
  | O => ([], r)
  | S size' =>
      let (x, r1) := draw bound r in
      let (xs, r2) := draws bound size' r1 in
      (Z.of_nat x :: xs, r2)
  end.

(** [np.random.randint(high, size=size)] *)
Definition randint (high size : nat) (r : RandomState)
  : outcome (list Z) * RandomState :=
  if decide (high = 0) then (Raise (ValueError "low >= high"), r)
  else let (xs, r') := draws high size r in (Ok xs, r').

(** [np.random.choice(range(n))] *)
Definition choice_range (n : nat) (r : RandomState) : outcome nat * RandomState :=
  if decide (n = 0) then (Raise (ValueError "a must be non-empty"), r)
  else let (x, r') := draw n r in (Ok x, r').

(** ** The external best-response capability

    [game_tools.Player] is not part of this module: it is taken through its
    interface, a constructor from the payoff array and [best_response], a
    function of the opponents' action distribution. *)

Class PlayerAPI (W : Type) := {
  Player : Type;
  new_Player : ndarray W -> Player;
  best_response : Player -> list W -> Z
}.

Section LocalInt.
Context {W : Type} `{NumW : Numeric W} `{PlayerW : PlayerAPI W}.

(** ** The engine object *)

(** [current_actions] is no field of its own: it is a view of the [indices]
    buffer of [current_actions_mixed], so a write to one is a write to the
    other.  The width of the buffer's integers is chosen by scipy; action
    indices are far within it and are kept in [Z]. *)
Record LocalInteraction := MkLocalInteraction {
  adj_matrix : csr_matrix W;
  N : nat;
  num_actions : nat;
  players : list Player;
  current_actions_mixed : csr_matrix Z
}.

Definition current_actions (li : LocalInteraction) : list Z :=
  indices (current_actions_mixed li).

(** Writing the whole index buffer in place. *)
Definition with_indices (li : LocalInteraction) (v : list Z) : LocalInteraction :=
  let m := current_actions_mixed li in
  MkLocalInteraction (adj_matrix li) (N li) (num_actions li) (players li)
    (Csr (data m) v (indptr m) (shape m)).

(** [LocalInteraction.__init__(payoff_matrix, adj_matrix)].  The adjacency
    argument is taken in the sparse form [sparse.csr_matrix] returns, the
    payoff argument as the array [np.asarray] returns. *)
Definition init (payoff_matrix : ndarray W) (adj : csr_matrix W)
  : outcome LocalInteraction :=
  let '(M_, N_) := shape adj in
  if negb (N_ =? M_) then Raise (ValueError "adjacency matrix must be square")
  else
    let A := payoff_matrix in
    if negb (ndim A =? 2)
       || negb (nth 0 (nd_shape A) 0 =? nth 1 (nd_shape A) 0)
    then Raise (ValueError "payoff matrix must be square")
    else
      let num_actions_ := nth 0 (nd_shape A) 0 in
      let players_ := (fun _ => new_Player A) <$> seq 0 N_ in
      let init_actions := replicate N_ 0%Z in
      Ok (MkLocalInteraction adj N_ num_actions_ players_
            (Csr (replicate N_ 1%Z) init_actions (seq 0 (N_ + 1))
                 (N_, num_actions_))).

(** ** The world: the engine object and the random source *)

Record world := MkWorld {
  self : LocalInteraction;
  np_random : RandomState
}.

Definition get_self : M world LocalInteraction := fun w => (Ok (self w), w).

Definition put_self (li : LocalInteraction) : M world unit :=
  fun w => (Ok tt, MkWorld li (np_random w)).

Definition with_random {A} (f : RandomState -> outcome A * RandomState)
  : M world A :=
  fun w => let (o, r) := f (np_random w) in (o, MkWorld (self w) r).

(** [self.current_actions[:] = v] *)
Definition assign_current_actions (v : rhs) : M world unit :=
  do li <- get_self ;;
  do l <- lift (broadcast_to (length (current_actions li)) v) ;;
  put_self (with_indices li l).

(** [LocalInteraction.set_init_actions(init_actions=None)] *)
Definition set_init_actions (init_actions : option rhs) : M world unit :=
  do li <- get_self ;;
  do init_actions <-
    match init_actions with
    | None =>
        do l <- with_random (randint (num_actions li) (N li)) ;;
        ret (Sequence l)
    | Some v => ret v
    end ;;
  assign_current_actions init_actions.

(** [enumerate(l)] *)
Definition enumerate {A} (l : list A) : list (nat * A) := imap pair l.

(** The loop of the simultaneous branch, over the pairs [(i, player)] in the
    order given: [best_responses[i] = player.best_response(opponent_act_dists[i, :])]. *)
Fixpoint fill_best_responses (opponent_act_dists : list (list W))
    (order : list (nat * Player)) (best_responses : list Z)
  : outcome (list Z) :=
  match order with
  | [] => Ok best_responses
  | (i, player) :: rest =>
      obind (getitem opponent_act_dists i) (fun d =>
      obind (setitem best_responses i (best_response player d)) (fun b =>
      fill_best_responses opponent_act_dists rest b))
  end.

(** The simultaneous branch of [play], with the processing order of the
    agents and the initial contents of [best_responses] as parameters; [play]
    uses [enumerate(self.players)] and [np.empty(self.N)]. *)
Definition play_simultaneous (order : list (nat * Player)) (scratch : list Z)
  : M world unit :=
  do li <- get_self ;;
  let opponent_act_dists :=
    dot_toarray (adj_matrix li) (current_actions_mixed li) in
  do best_responses <-
    lift (fill_best_responses opponent_act_dists order scratch) ;;
  assign_current_actions (Sequence best_responses).

(** The sequential branch of [play]. *)
Definition play_sequential : M world unit :=
  do li <- get_self ;;
  do i <- with_random (choice_range (N li)) ;;
  do revising_player <- lift (getitem (players li) i) ;;
  do row <- lift (getrow (adj_matrix li) i) ;;
  do opponent_act_dist <-
    lift (getitem (dot_toarray row (current_actions_mixed li)) 0) ;;
  do l <- lift (setitem (current_actions li) i
                  (best_response revising_player opponent_act_dist)) ;;
  put_self (with_indices li l).

(** [LocalInteraction.play(revision='simultaneous')] *)
Definition play (revision : string) : M world unit :=
  if String.eqb revision "simultaneous" then
    do li <- get_self ;;
    play_simultaneous (enumerate (players li)) (np_empty (N li))
  else if String.eqb revision "sequential" then
    play_sequential
  else
    lift (Raise (ValueError EmptyString)).

(** ** The trajectory driver *)

(** What the generator yields is [self.current_actions] itself, the live view
    of the index buffer, not a copy: a view is read against the engine as it
    is at the time of reading. *)
Definition view : Type := LocalInteraction -> list Z.

(** A generator object made by [simulate_iter]: its arguments and where its
    body is suspended.  No statement of the body runs before the first
    [next]. *)
Inductive gen_pc :=
| GenCreated
| GenSuspended (t : nat)
| GenFinished.

Record generator := MkGenerator {
  gen_ts_length : Z;
  gen_init_actions : option rhs;
  gen_revision : string;
  gen_at : gen_pc
}.

(** [LocalInteraction.simulate_iter(ts_length, init_actions, revision)]:
    calling the generator function only builds the object. *)
Definition simulate_iter (ts_length : Z) (init_actions : option rhs)
    (revision : string) : generator :=
  MkGenerator ts_length init_actions revision GenCreated.

Definition gen_goto (g : generator) (pc : gen_pc) : generator :=
  MkGenerator (gen_ts_length g) (gen_init_actions g) (gen_revision g) pc.

(** The head of [for t in range(ts_length)]: yield at [t] or fall off the
    end. *)
Definition loop_head (g : generator) (t : nat) : generator * option view :=
  if decide (Z.of_nat t < gen_ts_length g)%Z
  then (gen_goto g (GenSuspended t), Some current_actions)
  else (gen_goto g GenFinished, None).

(** [next(g)]: run the body up to the next [yield]; [None] is
    [StopIteration]. *)
Definition next (g : generator) : M world (generator * option view) :=
  match gen_at g with
  | GenCreated =>
      do_ set_init_actions (gen_init_actions g) ;;
      ret (loop_head g 0)
  | GenSuspended t =>
      do_ play (gen_revision g) ;;
      ret (loop_head g (S t))
  | GenFinished => ret (g, None)
  end.

(** [for t, x in enumerate(g): acc = body(t, x, acc)].  The loop runs until
    the generator is exhausted; [fuel] bounds the number of calls of [next],
    and [None] means the bound was reached. *)
Fixpoint for_enumerate {A} (fuel : nat) (g : generator) (t : nat)
    (body : nat -> view -> A -> M world A) (acc : A) (w : world)
  : option (outcome A * world) :=
  match fuel with
  | O => None
  | S fuel' =>
      match next g w with
      | (Raise e, w') => Some (Raise e, w')
      | (Ok (g', None), w') => Some (Ok acc, w')
      | (Ok (g', Some x), w') =>
          match body t x acc w' with
          | (Raise e, w'') => Some (Raise e, w'')
          | (Ok acc', w'') => for_enumerate fuel' g' (S t) body acc' w''
          end
      end
  end.

(** [np.empty([rows, cols], dtype=int)] *)
Definition np_empty2 (rows : Z) (cols : nat) : outcome (list (list Z)) :=
  if decide (rows < 0)%Z
  then Raise (ValueError "negative dimensions are not allowed")
  else Ok (replicate (Z.to_nat rows) (np_empty cols)).

(** [actions_sequence[t] = actions]: the view is read now and its contents
    are copied into row [t]. *)
Definition assign_row (t : nat) (actions : view) (actions_sequence : list (list Z))
  : M world (list (list Z)) :=
  do li <- get_self ;;
  do row <- lift (getitem actions_sequence t) ;;
  do r <- lift (broadcast_to (length row) (Sequence (actions li))) ;;
  lift (setitem actions_sequence t r).

(** [LocalInteraction.simulate(ts_length, init_actions, revision)], with the
    bound on the calls of [next] as a parameter. *)
Definition simulate_bounded (fuel : nat) (ts_length : Z)
    (init_actions : option rhs) (revision : string) (w : world)
  : option (outcome (list (list Z)) * world) :=
  match set_init_actions init_actions w with
  | (Raise e, w1) => Some (Raise e, w1)
  | (Ok _, w1) =>
      match np_empty2 ts_length (N (self w1)) with
      | Raise e => Some (Raise e, w1)
      | Ok actions_sequence =>
          let actions_sequence_iter :=
            simulate_iter ts_length init_actions revision in
          for_enumerate fuel actions_sequence_iter 0 assign_row
            actions_sequence w1
      end
  end.

(** The generator is exhausted after [ts_length] yields, so [ts_length + 1]
    calls of [next] are enough ([simulate_fuel_irrelevant] below). *)
Definition simulate (ts_length : Z) (init_actions : option rhs)
    (revision : string) (w : world)
  : option (outcome (list (list Z)) * world) :=
  simulate_bounded (S (Z.to_nat ts_length)) ts_length init_actions revision w.

(** ** Two clients of the iterator

    [list(g)] keeps the yielded objects; [[a.copy() for a in g]] copies each
    one while the generator is suspended at its yield. *)
Definition keep_item (t : nat) (x : view) (acc : list view)
  : M world (list view) :=
  ret (acc ++ [x]).

Definition copy_item (t : nat) (x : view) (acc : list (list Z))
  : M world (list (list Z)) :=
  do li <- get_self ;;
  ret (acc ++ [x li]).

Definition list_of (fuel : nat) (g : generator) (w : world)
  : option (outcome (list view) * world) :=
  for_enumerate fuel g 0 keep_item [] w.

Definition copies_of (fuel : nat) (g : generator) (w : world)
  : option (outcome (list (list Z)) * world) :=
  for_enumerate fuel g 0 copy_item [] w.

(** ** Well-formed engines *)

(** The shape facts the constructor fixes and no method changes. *)
Record wf (li : LocalInteraction) : Prop := MkWf {
  wf_adj : shape (adj_matrix li) = (N li, N li);
  wf_players : length (players li) = N li;
  wf_data : data (current_actions_mixed li) = replicate (N li) 1%Z;
  wf_indptr : indptr (current_actions_mixed li) = seq 0 (N li + 1);
  wf_shape : shape (current_actions_mixed li) = (N li, num_actions li);
  wf_indices : length (current_actions li) = N li
}.

Definition in_range (li : LocalInteraction) (a : Z) : Prop :=
  (0 <= a < Z.of_nat (num_actions li))%Z.

(** Dual-representation consistency: row [i] of the dense mixed form is zero
    everywhere but in column [current_actions[i]], where it is one. *)
Definition consistent (li : LocalInteraction) : Prop :=
  length (current_actions li) = N li /\
  length (toarray (current_actions_mixed li)) = N li /\
  forall i a, current_actions li !! i = Some a ->
    in_range li a /\
    exists row, toarray (current_actions_mixed li) !! i = Some row /\
      length row = num_actions li /\
      forall k, k < num_actions li ->
        row !! k = Some (if decide (Z.of_nat k = a) then 1%Z else 0%Z).

(** The contract of the external capability: a best response to a
    distribution over the engine's actions is one of these actions. *)
Definition br_sound (li : LocalInteraction) : Prop :=
  forall p d, p ∈ players li -> length d = num_actions li ->
    in_range li (best_response p d).

Definition rhs_in_range (li : LocalInteraction) (v : rhs) : Prop :=
  match v with
  | Scalar a => in_range li a
  | Sequence l => Forall (in_range li) l
  end.

(** The arguments seeding accepts: no argument when there is an action to
    draw, a scalar, or a sequence of length N or one. *)
Definition seedable (li : LocalInteraction) (init_actions : option rhs) : Prop :=
  match init_actions with
  | None => 0 < num_actions li
  | Some (Scalar _) => True
  | Some (Sequence l) => length l = N li \/ length l = 1
  end.

Definition recognized (revision : string) : Prop :=
  revision = "simultaneous" \/ revision = "sequential".

(** The engines a caller can hold: built by the constructor, with at least
    one action, and then driven through the public operations. *)
Inductive reachable : world -> Prop :=
| reach_init payoff_matrix adj li r :
    init payoff_matrix adj = Ok li ->
    0 < num_actions li ->
    reachable (MkWorld li r)
| reach_set_init_actions w init_actions :
    reachable w ->
    (forall v, init_actions = Some v -> rhs_in_range (self w) v) ->
    reachable (snd (set_init_actions init_actions w))
| reach_play w revision :
    reachable w ->
    reachable (snd (play revision w)).

(** The world in which the next [n] cells of the tape have been consumed
    and nothing else has happened. *)
Definition skip_draws (n : nat) (w : world) : world :=
  MkWorld (self w)
    (MkRandomState (tape (np_random w)) (pos (np_random w) + n)).

(** The worlds in which every recognized revision succeeds. *)
Definition playable (revision : string) (w : world) : Prop :=
  wf (self w) /\ (revision = "sequential" -> 0 < N (self w)).

(** Square inputs of the constructor. *)
Definition square_adjacency (adj : csr_matrix W) : Prop :=
  fst (shape adj) = snd (shape adj).

Definition square_payoff (payoff_matrix : ndarray W) : Prop :=
  exists n, nd_shape payoff_matrix = [n; n].

(** The world after one more call of [play]. *)
Definition step (revision : string) (w : world) : world :=
  snd (play revision w).

(** ** Reference behaviour, for the statements below *)

(** The action profiles before revisions [from], ..., [from + n - 1] of a
    run of [play] that starts in world [w]. *)
Definition profiles (revision : string) (w : world) (from n : nat)
  : list (list Z) :=
  (fun t => current_actions (self (Nat.iter t (step revision) w)))
    <$> seq from n.

(** What the simultaneous revision writes: agent [i]'s best response to row
    [i] of the product of the adjacency matrix with the mixed state it
    started from. *)
Definition simultaneous_responses (li : LocalInteraction) : list Z :=
  zip_with best_response (players li)
    (dot_toarray (adj_matrix li) (current_actions_mixed li)).

(** What a sequential revision of agent [i] writes. *)
Definition sequential_response (li : LocalInteraction) (i : nat) : list Z :=
  match players li !! i,
        dot_toarray (adj_matrix li) (current_actions_mixed li) !! i with
  | Some p, Some d => <[i := best_response p d]> (current_actions li)
  | _, _ => current_actions li
  end.

(** The fields no method writes. *)
Definition same_frame (li li' : LocalInteraction) : Prop :=
  adj_matrix li' = adj_matrix li /\ N li' = N li /\
  num_actions li' = num_actions li /\ players li' = players li.

(** The loop from a yield on, as a function of the number of yields still to
    come: [next] plays once and either yields again or stops. *)
Fixpoint resume {A} (rem : nat) (revision : string)
    (body : nat -> view -> A -> M world A) (t : nat) (acc : A) (w : world)
  : outcome A * world :=
  match play revision w with
  | (Raise e, w') => (Raise e, w')
  | (Ok _, w') =>
      match rem with
      | O => (Ok acc, w')
      | S rem' =>
          match body (S t) current_actions acc w' with
          | (Raise e, w'') => (Raise e, w'')
          | (Ok acc', w'') => resume rem' revision body (S t) acc' w''
          end
      end
  end.

Definition run_loop {A} (ts : Z) (init_actions : option rhs) (revision : string)
    (body : nat -> view -> A -> M world A) (acc : A) (w : world)
  : outcome A * world :=
  match set_init_actions init_actions w with
  | (Raise e, w') => (Raise e, w')
  | (Ok _, w') =>
      if decide (0 < ts)%Z then
        match body 0 current_actions acc w' with
        | (Raise e, w'') => (Raise e, w'')
        | (Ok acc', w'') => resume (Z.to_nat ts - 1) revision body 0 acc' w''
        end
      else (Ok acc, w')
  end.

(** Two runs end alike: in the same world, both raising the same exception
    or both returning, with related results. *)
Definition alike {A B} (R : A -> B -> Prop)
    (r1 : outcome A * world) (r2 : outcome B * world) : Prop :=
  snd r1 = snd r2 /\
  match fst r1, fst r2 with
  | Ok a, Ok b => R a b
  | Raise e1, Raise e2 => e1 = e2
  | _, _ => False
  end.

(** The agent [np.random.choice(range(self.N))] returns in world [w]. *)
Definition selected_agent (w : world) : outcome nat :=
  fst (choice_range (N (self w)) (np_random w)).

(** The world in which the cell the random source reads next holds [c]. *)
Definition set_cell (c : nat) (w : world) : world :=
  let r := np_random w in
  MkWorld (self w)
    (MkRandomState (fun n => if n =? pos r then c else tape r n) (pos r)).

(** One simultaneous revision as a map on engines: every agent moves to its
    best response against the profile the engine holds. *)
Definition best_response_map (li : LocalInteraction) : LocalInteraction :=
  with_indices li (simultaneous_responses li).

(** The tally behind entry [k] of agent [i]'s opponent distribution: the
    weights of the stored neighbours of [i] that currently play [k], each
    times the stored one of the mixed form, summed in storage order. *)
Definition neighbour_tally (li : LocalInteraction) (i k : nat) : W :=
  foldl (fun acc e =>
           if decide (current_actions li !! Z.to_nat (fst e) = Some (Z.of_nat k))
           then add acc (mul (snd e) (of_int 1%Z))
           else acc)
        zero (csr_row (adj_matrix li) i).

(** The stored column indices of the adjacency matrix name agents. *)
Definition adjacency_columns_valid (li : LocalInteraction) : Prop :=
  forall i, Forall (fun e => (0 <= fst e < Z.of_nat (N li))%Z)
              (csr_row (adj_matrix li) i).

(** The number of cells of the random source a call of [simulate] reads. *)
Definition draws_needed (li : LocalInteraction) (ts : Z)
    (init_actions : option rhs) (revision : string) : nat :=
  (match init_actions with None => 2 * N li | Some _ => 0 end)
  + (if String.eqb revision "sequential" then Z.to_nat ts else 0).

End LocalInt.

(** ** A concrete collaborator and the three-agent cycle

    Integer weights, and a player that answers with the first action of
    highest expected payoff against the given distribution. *)

Module Cycle3.

Fixpoint argmax_from (best_i : nat) (best : Z) (i : nat) (l : list Z) : nat :=
  match l with
  | [] => best_i
  | x :: l' =>
      if (best <? x)%Z then argmax_from i x (S i) l'
      else argmax_from best_i best (S i) l'
  end.

Definition argmax (l : list Z) : nat :=
  match l with
  | [] => 0
  | x :: l' => argmax_from 0 x 1 l'
  end.

Definition payoff_row (A : ndarray Z) (a : nat) : list Z :=
  let n := nth 1 (nd_shape A) 0 in
  slice (a * n) (a * n + n) (nd_data A).

Definition expected_payoff (A : ndarray Z) (d : list Z) (a : nat) : Z :=
  foldl Z.add 0%Z (zip_with Z.mul (payoff_row A a) d).

Definition first_best_response (A : ndarray Z) (d : list Z) : Z :=
  Z.of_nat (argmax (expected_payoff A d <$> seq 0 (nth 0 (nd_shape A) 0))).

#[export] Instance Player_Z : PlayerAPI Z :=
  {| Player := ndarray Z;
     new_Player := fun A => A;
     best_response := first_best_response |}.

(** Coordination payoffs: matching the opponent pays one. *)
Definition coordination : ndarray Z := Ndarray [2; 2] [1; 0; 0; 1]%Z.

(** The directed cycle in which agent 0 observes agent 2, agent 1 observes
    agent 0 and agent 2 observes agent 1. *)
Definition cycle : csr_matrix Z :=
  Csr [1; 1; 1]%Z [2; 0; 1]%Z [0; 1; 2; 3] (3, 3).

Definition counting_tape : RandomState := MkRandomState (fun n => n) 0.

Definition engine : LocalInteraction :=
  match init coordination cycle with
  | Ok li => li
  | Raise _ => MkLocalInteraction cycle 0 0 [] (Csr [] [] [] (0, 0))
  end.

Definition start : world := MkWorld engine counting_tape.

(** The scenario's initial profile, and the world in which it has been
    seeded. *)
Definition scenario : list Z := [0; 1; 0]%Z.

Definition seeded : world :=
  snd (set_init_actions (Some (Sequence scenario)) start).

(** The agents visited last to first. *)
Definition backwards : list (nat * Player) :=
  reverse (enumerate (players (self seeded))).

End Cycle3.

(** ** An engine without agents *)

Module Empty.
Import Cycle3.

Definition no_edges : csr_matrix Z := Csr [] [] [0] (0, 0).

Definition engine : LocalInteraction :=
  match init coordination no_edges with
  | Ok li => li
  | Raise _ => MkLocalInteraction no_edges 0 0 [] (Csr [] [] [] (0, 0))
  end.

Definition start : world := MkWorld engine counting_tape.

End Empty.

(** * Facts about arrays and sparse rows *)

Lemma broadcast_to_length n v l : broadcast_to n v = Ok l -> length l = n.
Proof.
  destruct v as [a | s]; simpl.
  - intros [= <-]. apply length_replicate.
  - destruct (decide (length s = n)) as [Hn | Hn].
    + by intros [= <-].
    + destruct s as [| a [| b s']]; try discriminate.
      intros [= <-]. apply length_replicate.
Qed.

Lemma broadcast_to_exact n l : length l = n -> broadcast_to n (Sequence l) = Ok l.
Proof. intros Hl. simpl. by rewrite decide_True. Qed.

Lemma broadcast_to_single n a : broadcast_to n (Sequence [a]) = Ok (replicate n a).
Proof.
  simpl. destruct (decide (1 = n)) as [<- | Hn]; reflexivity.
Qed.

(** Seeding twice with the same explicit value is seeding once: what the
    first broadcast produced is broadcast to itself. *)
Lemma broadcast_to_idem n v l :
  broadcast_to n v = Ok l -> broadcast_to (length l) v = Ok l.
Proof.
  intros Hb. by rewrite (broadcast_to_length _ _ _ Hb).
Qed.

Lemma slice_lookup {A} (l : list A) i x :
  l !! i = Some x -> slice i (S i) l = [x].
Proof.
  intros Hx. unfold slice. replace (S i - i) with 1 by lia.
  rewrite (drop_S _ _ _ Hx). reflexivity.
Qed.

Lemma slice_slice {A} (l : list A) lo hi :
  slice 0 (hi - lo) (slice lo hi l) = slice lo hi l.
Proof.
  unfold slice. rewrite drop_0, Nat.sub_0_r.
  rewrite take_take. f_equal. lia.
Qed.

Lemma csr_row_getrow {A} (m r : csr_matrix A) i :
  getrow m i = Ok r -> csr_row r 0 = csr_row m i /\ shape r = (1, snd (shape m)).
Proof.
  unfold getrow. case_decide; [| discriminate].
  intros [= <-]. unfold csr_row. simpl. by rewrite !slice_slice.
Qed.

Lemma dense_row_length `{Numeric A} n (entries : list (Z * A)) :
  length (dense_row n entries) = n.
Proof. unfold dense_row. by rewrite length_fmap, length_seq. Qed.

Lemma dense_row_lookup `{Numeric A} n (entries : list (Z * A)) k :
  k < n -> dense_row n entries !! k = Some (col_sum entries k).
Proof.
  intros Hk. unfold dense_row.
  by rewrite list_lookup_fmap, lookup_seq_lt.
Qed.

Lemma dot_toarray_length `{Numeric W} (a : csr_matrix W) b :
  length (dot_toarray a b) = fst (shape a).
Proof. unfold dot_toarray. by rewrite length_fmap, length_seq. Qed.

Lemma dot_toarray_lookup `{Numeric W} (a : csr_matrix W) b i :
  i < fst (shape a) ->
  dot_toarray a b !! i = Some (dense_row (snd (shape b)) (dot_row a b i)).
Proof.
  intros Hi. unfold dot_toarray.
  by rewrite list_lookup_fmap, lookup_seq_lt.
Qed.

(** Slicing a row out of the adjacency matrix and multiplying gives the
    corresponding row of the full product. *)
Lemma dot_toarray_getrow `{Numeric W} (a r : csr_matrix W) b i :
  getrow a i = Ok r ->
  dot_toarray r b !! 0 = dot_toarray a b !! i.
Proof.
  intros Hr. destruct (csr_row_getrow _ _ _ Hr) as [Hrow Hshape].
  unfold getrow in Hr. case_decide; [| discriminate].
  rewrite !dot_toarray_lookup by (rewrite ?Hshape; simpl; lia).
  unfold dot_row. by rewrite Hrow.
Qed.

Lemma toarray_length `{Numeric A} (m : csr_matrix A) :
  length (toarray m) = fst (shape m).
Proof. unfold toarray. by rewrite length_fmap, length_seq. Qed.

(** A row that stores the single entry 1 in column [a] is the indicator of
    [a]. *)
Lemma col_sum_indicator (a : Z) k :
  col_sum [(a, 1%Z)] k = if decide (Z.of_nat k = a) then 1%Z else 0%Z.
Proof.
  unfold col_sum. simpl.
  destruct (Z.eqb_spec a (Z.of_nat k)); case_decide; try congruence; reflexivity.
Qed.

(** * Facts about the random source *)

Lemma draws_length bound size r : length (fst (draws bound size r)) = size.
Proof.
  revert r. induction size as [| size IH]; intros r; simpl; [done |].
  specialize (IH (MkRandomState (tape r) (S (pos r)))).
  destruct (draws bound size _); simpl in *. by rewrite IH.
Qed.

Lemma draws_range bound size r :
  0 < bound ->
  Forall (fun a => (0 <= a < Z.of_nat bound)%Z) (fst (draws bound size r)).
Proof.
  intros Hb. revert r. induction size as [| size IH]; intros r; simpl.
  - constructor.
  - specialize (IH (MkRandomState (tape r) (S (pos r)))).
    destruct (draws bound size _); simpl in *. constructor; [| done].
    pose proof (Nat.mod_upper_bound (tape r (pos r)) bound). lia.
Qed.

Lemma draws_state bound size r :
  snd (draws bound size r) = MkRandomState (tape r) (pos r + size).
Proof.
  revert r. induction size as [| size IH]; intros r; simpl.
  - destruct r; simpl. f_equal. lia.
  - specialize (IH (MkRandomState (tape r) (S (pos r)))).
    destruct (draws bound size _); simpl in *. rewrite IH. f_equal. lia.
Qed.

(** * Facts about the engine *)

Section EngineFacts.
Context {W : Type} `{NumW : Numeric W} `{PlayerW : PlayerAPI W}.

Lemma world_eta (w : world) : MkWorld (self w) (np_random w) = w.
Proof. by destruct w. Qed.

Lemma current_actions_with_indices (li : LocalInteraction) l :
  current_actions (with_indices li l) = l.
Proof. reflexivity. Qed.

Lemma with_indices_twice (li : LocalInteraction) l1 l2 :
  with_indices (with_indices li l1) l2 = with_indices li l2.
Proof. reflexivity. Qed.

Lemma wf_with_indices (li : LocalInteraction) l :
  wf li -> length l = N li -> wf (with_indices li l).
Proof. intros [] Hl. by constructor. Qed.

(** ** Running the methods *)

Lemma assign_current_actions_run v (w : world) :
  assign_current_actions v w =
  match broadcast_to (length (current_actions (self w))) v with
  | Ok l => (Ok tt, MkWorld (with_indices (self w) l) (np_random w))
  | Raise e => (Raise e, w)
  end.
Proof.
  unfold assign_current_actions, bind, get_self, lift, put_self.
  by destruct (broadcast_to _ v).
Qed.

Lemma set_init_actions_explicit v (w : world) :
  set_init_actions (Some v) w = assign_current_actions v w.
Proof. reflexivity. Qed.

Lemma set_init_actions_random (w : world) :
  set_init_actions None w =
  if decide (num_actions (self w) = 0)
  then (Raise (ValueError "low >= high"), w)
  else
    let d := draws (num_actions (self w)) (N (self w)) (np_random w) in
    assign_current_actions (Sequence (fst d)) (MkWorld (self w) (snd d)).
Proof.
  unfold set_init_actions, bind, get_self, with_random, randint, ret.
  case_decide.
  - by rewrite world_eta.
  - by destruct (draws _ _ _).
Qed.

(** ** The constructor *)

Lemma init_ok payoff_matrix adj (li : LocalInteraction) :
  init payoff_matrix adj = Ok li ->
  fst (shape adj) = snd (shape adj) /\
  ndim payoff_matrix = 2 /\
  nth 0 (nd_shape payoff_matrix) 0 = nth 1 (nd_shape payoff_matrix) 0 /\
  li = MkLocalInteraction adj (snd (shape adj))
         (nth 0 (nd_shape payoff_matrix) 0)
         ((fun _ => new_Player payoff_matrix) <$> seq 0 (snd (shape adj)))
         (Csr (replicate (snd (shape adj)) 1%Z)
              (replicate (snd (shape adj)) 0%Z)
              (seq 0 (snd (shape adj) + 1))
              (snd (shape adj), nth 0 (nd_shape payoff_matrix) 0)).
Proof.
  unfold init. destruct (shape adj) as [m n]; simpl.
  destruct (Nat.eqb_spec n m) as [-> | Hnm]; simpl; [| discriminate].
  destruct (Nat.eqb_spec (ndim payoff_matrix) 2) as [Hd | Hd]; simpl;
    [| discriminate].
  destruct (Nat.eqb_spec (nth 0 (nd_shape payoff_matrix) 0)
                         (nth 1 (nd_shape payoff_matrix) 0)) as [Hs | Hs];
    simpl; [| discriminate].
  by intros [= <-].
Qed.

Lemma init_wf payoff_matrix adj (li : LocalInteraction) :
  init payoff_matrix adj = Ok li -> wf li.
Proof.
  intros Hinit. destruct (init_ok _ _ _ Hinit) as (Hsq & _ & _ & ->).
  constructor; simpl.
  - destruct (shape adj); simpl in *; by subst.
  - by rewrite length_fmap, length_seq.
  - reflexivity.
  - reflexivity.
  - reflexivity.
  - unfold current_actions; simpl. apply length_replicate.
Qed.

(** ** From the index buffer to the dense one-hot rows *)

Lemma mixed_row (li : LocalInteraction) i a :
  wf li -> current_actions li !! i = Some a ->
  csr_row (current_actions_mixed li) i = [(a, 1%Z)].
Proof.
  intros Hwf Ha. pose proof (lookup_lt_Some _ _ _ Ha) as Hi.
  rewrite (wf_indices _ Hwf) in Hi.
  unfold csr_row. rewrite (wf_indptr _ Hwf), (wf_data _ Hwf).
  rewrite !seq_nth by lia. simpl.
  unfold current_actions in Ha. rewrite (slice_lookup _ _ _ Ha).
  rewrite (slice_lookup _ i 1%Z); [done |].
  by apply lookup_replicate_2.
Qed.

Lemma wf_consistent (li : LocalInteraction) :
  wf li -> Forall (in_range li) (current_actions li) -> consistent li.
Proof.
  intros Hwf Hrange. split; [apply (wf_indices _ Hwf) |]. split.
  { by rewrite toarray_length, (wf_shape _ Hwf). }
  intros i a Ha. split.
  { by eapply Forall_lookup_1 in Hrange. }
  pose proof (lookup_lt_Some _ _ _ Ha) as Hi.
  rewrite (wf_indices _ Hwf) in Hi.
  eexists. split; [| split].
  - unfold toarray. rewrite list_lookup_fmap, (wf_shape _ Hwf); simpl.
    rewrite lookup_seq_lt by done. simpl. reflexivity.
  - apply dense_row_length.
  - intros k Hk. rewrite dense_row_lookup by done.
    rewrite (mixed_row _ _ _ Hwf Ha). f_equal. apply col_sum_indicator.
Qed.


(** ** One revision *)

(** Every write of the loop goes to the slot of the pair's own index, so
    after the loop a slot that was visited holds the value its index
    determines, whatever the order of the visits. *)
Lemma fill_best_responses_spec opp (F : nat -> Z) order buf :
  (forall i p, (i, p) ∈ order ->
     i < length buf /\
     exists d, opp !! i = Some d /\ best_response p d = F i) ->
  exists out,
    fill_best_responses opp order buf = Ok out /\
    length out = length buf /\
    forall j, out !! j = if decide (j ∈ order.*1) then Some (F j) else buf !! j.
Proof.
  revert buf. induction order as [| [i p] rest IH]; intros buf Hord;
    cbn [fill_best_responses].
  - exists buf. split; [done |]. split; [done |].
    intros j. rewrite decide_False; [done |]. apply not_elem_of_nil.
  - destruct (Hord i p) as (Hi & d & Hd & HF); [left |].
    unfold getitem. rewrite Hd. cbn [obind].
    unfold setitem. rewrite decide_True by done. cbn [obind].
    destruct (IH (<[i := best_response p d]> buf)) as (out & Hout & Hlen & Hget).
    { intros i' p' Hin. rewrite length_insert. apply Hord. by right. }
    exists out. split; [done |]. rewrite length_insert in Hlen.
    split; [done |]. intros j. rewrite Hget.
    change (((i, p) :: rest).*1) with (i :: rest.*1).
    destruct (decide (j = i)) as [-> | Hne].
    + rewrite (decide_True (P := i ∈ i :: rest.*1)) by left.
      case_decide; [done |].
      rewrite list_lookup_insert_eq by done. by rewrite HF.
    + rewrite list_lookup_insert_ne by done.
      repeat case_decide; try done.
      * exfalso. apply H0. by right.
      * exfalso. apply elem_of_cons in H0 as [? | ?]; done.
Qed.

Lemma enumerate_elem {A} (l : list A) i x :
  (i, x) ∈ enumerate l <-> l !! i = Some x.
Proof.
  unfold enumerate. rewrite elem_of_lookup_imap. split.
  - intros (j & y & [= -> ->] & Hy). done.
  - intros Hx. by exists i, x.
Qed.

Lemma enumerate_indices {A} (l : list A) i :
  i ∈ (enumerate l).*1 <-> i < length l.
Proof.
  rewrite list_elem_of_fmap. split.
  - intros ([j x] & -> & Hin). apply enumerate_elem in Hin.
    by eapply lookup_lt_Some.
  - intros Hi. destruct (lookup_lt_is_Some_2 _ _ Hi) as [x Hx].
    exists (i, x). split; [done |]. by apply enumerate_elem.
Qed.

Lemma simultaneous_responses_length li :
  wf li -> length (simultaneous_responses li) = N li.
Proof.
  intros Hwf. unfold simultaneous_responses.
  rewrite length_zip_with, dot_toarray_length, (wf_adj _ Hwf), (wf_players _ Hwf).
  simpl. lia.
Qed.

Lemma play_simultaneous_run order scratch (w : world) :
  wf (self w) ->
  order ≡ₚ enumerate (players (self w)) ->
  length scratch = N (self w) ->
  play_simultaneous order scratch w =
  (Ok tt, MkWorld (with_indices (self w) (simultaneous_responses (self w)))
            (np_random w)).
Proof.
  intros Hwf Hperm Hscratch.
  set (li := self w) in *.
  set (opp := dot_toarray (adj_matrix li) (current_actions_mixed li)).
  destruct (fill_best_responses_spec opp
              (fun i => nth i (simultaneous_responses li) 0%Z) order scratch)
    as (out & Hout & Hlen & Hget).
  { intros i p Hin. rewrite Hperm in Hin. apply enumerate_elem in Hin.
    pose proof (lookup_lt_Some _ _ _ Hin) as Hi.
    rewrite (wf_players _ Hwf) in Hi. split; [lia |].
    assert (Hopp : opp !! i = Some (dense_row (num_actions li) (dot_row (adj_matrix li) (current_actions_mixed li) i))).
    { subst opp. rewrite dot_toarray_lookup by (by rewrite (wf_adj _ Hwf)).
      by rewrite (wf_shape _ Hwf). }
    eexists. split; [exact Hopp |].
    symmetry. apply nth_lookup_Some.
    unfold simultaneous_responses. fold li opp.
    rewrite lookup_zip_with. fold li in Hin. by rewrite Hin, Hopp. }
  assert (Heq : out = simultaneous_responses li).
  { apply list_eq_same_length with (N li).
    - by apply simultaneous_responses_length.
    - lia.
    - intros j x y Hj Hx Hy. rewrite Hget in Hx.
      rewrite decide_True in Hx.
      + injection Hx as <-. by apply nth_lookup_Some.
      + rewrite Hperm. apply enumerate_indices. by rewrite (wf_players _ Hwf). }
  unfold play_simultaneous, bind, get_self, lift. fold li opp. rewrite Hout.
  rewrite assign_current_actions_run. fold li.
  rewrite broadcast_to_exact; [by subst out |].
  rewrite Hlen, Hscratch. symmetry. apply (wf_indices _ Hwf).
Qed.

Lemma play_simultaneous_eq (w : world) :
  play "simultaneous" w =
  play_simultaneous (enumerate (players (self w))) (np_empty (N (self w))) w.
Proof. reflexivity. Qed.

Lemma play_sequential_run (w : world) :
  wf (self w) -> 0 < N (self w) ->
  play "sequential" w =
  (Ok tt,
   MkWorld (with_indices (self w)
              (sequential_response (self w)
                 (fst (draw (N (self w)) (np_random w)))))
           (snd (draw (N (self w)) (np_random w)))).
Proof.
  intros Hwf HN. set (li := self w) in *.
  change (play "sequential" w) with (play_sequential w).
  unfold play_sequential, bind, get_self, with_random, choice_range, lift.
  fold li. rewrite decide_False by lia. simpl.
  set (i := tape (np_random w) (pos (np_random w)) `mod` N li).
  assert (Hi : i < N li) by (apply Nat.mod_upper_bound; lia).
  destruct (lookup_lt_is_Some_2 (players li) i) as [p Hp];
    [by rewrite (wf_players _ Hwf) |].
  unfold getitem at 1. rewrite Hp.
  unfold getrow. rewrite decide_True by (by rewrite (wf_adj _ Hwf)).
  unfold getitem.
  match goal with |- context [dot_toarray ?r _ !! 0] => set (row := r) end.
  assert (Hrow : getrow (adj_matrix li) i = Ok row).
  { unfold getrow. by rewrite decide_True by (by rewrite (wf_adj _ Hwf)). }
  rewrite (dot_toarray_getrow _ _ _ _ Hrow).
  rewrite dot_toarray_lookup by (by rewrite (wf_adj _ Hwf)).
  unfold setitem. rewrite decide_True by (by rewrite (wf_indices _ Hwf)).
  unfold put_self, sequential_response. simpl. rewrite Hp.
  rewrite dot_toarray_lookup by (by rewrite (wf_adj _ Hwf)).
  reflexivity.
Qed.

(** With no agent to choose from, [np.random.choice] raises before anything
    is written. *)
Lemma play_sequential_empty (w : world) :
  N (self w) = 0 ->
  play "sequential" w = (Raise (ValueError "a must be non-empty"), w).
Proof.
  intros HN. change (play "sequential" w) with (play_sequential w).
  unfold play_sequential, bind, get_self, with_random, choice_range.
  rewrite decide_True by done. by rewrite world_eta.
Qed.

Lemma play_unrecognized revision (w : world) :
  revision <> "simultaneous" -> revision <> "sequential" ->
  play revision w = (Raise (ValueError EmptyString), w).
Proof.
  intros H1 H2. unfold play.
  apply String.eqb_neq in H1, H2. by rewrite H1, H2.
Qed.


(** ** What no method changes *)

Lemma same_frame_refl li : same_frame li li.
Proof. by repeat split. Qed.

Lemma same_frame_with_indices li l : same_frame li (with_indices li l).
Proof. by repeat split. Qed.

Lemma same_frame_trans li1 li2 li3 :
  same_frame li1 li2 -> same_frame li2 li3 -> same_frame li1 li3.
Proof. intros (? & ? & ? & ?) (? & ? & ? & ?). repeat split; congruence. Qed.

Lemma assign_current_actions_wf v (w : world) :
  wf (self w) ->
  wf (self (snd (assign_current_actions v w))) /\
  same_frame (self w) (self (snd (assign_current_actions v w))).
Proof.
  intros Hwf. rewrite assign_current_actions_run.
  destruct (broadcast_to _ v) as [l | e] eqn:Hb; simpl.
  - split; [| apply same_frame_with_indices].
    apply wf_with_indices; [done |].
    rewrite (broadcast_to_length _ _ _ Hb). apply (wf_indices _ Hwf).
  - split; [done | apply same_frame_refl].
Qed.

Lemma set_init_actions_wf init_actions (w : world) :
  wf (self w) ->
  wf (self (snd (set_init_actions init_actions w))) /\
  same_frame (self w) (self (snd (set_init_actions init_actions w))).
Proof.
  intros Hwf. destruct init_actions as [v |].
  - rewrite set_init_actions_explicit. by apply assign_current_actions_wf.
  - rewrite set_init_actions_random. case_decide.
    + split; [done | apply same_frame_refl].
    + cbn zeta. by apply (assign_current_actions_wf _ (MkWorld _ _)).
Qed.

Lemma play_wf revision (w : world) :
  wf (self w) ->
  wf (self (snd (play revision w))) /\
  same_frame (self w) (self (snd (play revision w))).
Proof.
  intros Hwf.
  destruct (decide (revision = "simultaneous")) as [-> | Hsim].
  { rewrite play_simultaneous_eq, play_simultaneous_run; try done.
    - simpl. split; [| apply same_frame_with_indices].
      apply wf_with_indices; [done |]. by apply simultaneous_responses_length.
    - apply length_replicate. }
  destruct (decide (revision = "sequential")) as [-> | Hseq].
  { destruct (decide (N (self w) = 0)) as [HN | HN].
    - rewrite play_sequential_empty by done.
      split; [done | apply same_frame_refl].
    - rewrite play_sequential_run by (done || lia). simpl.
      split; [| apply same_frame_with_indices].
      apply wf_with_indices; [done |]. unfold sequential_response.
      repeat case_match; rewrite ?length_insert; apply (wf_indices _ Hwf). }
  rewrite play_unrecognized by done. simpl.
  split; [done | apply same_frame_refl].
Qed.

(** A recognized revision of a well-formed engine with an agent to choose
    does not raise. *)
Lemma play_ok revision (w : world) :
  wf (self w) -> recognized revision ->
  (revision = "sequential" -> 0 < N (self w)) ->
  fst (play revision w) = Ok tt.
Proof.
  intros Hwf [-> | ->] HN.
  - rewrite play_simultaneous_eq, play_simultaneous_run; try done.
    apply length_replicate.
  - by rewrite play_sequential_run by auto.
Qed.

(** ** Driving the generator *)

Lemma next_created ts init_actions revision (w : world) :
  next (simulate_iter ts init_actions revision) w =
  match set_init_actions init_actions w with
  | (Ok _, w') =>
      (Ok (loop_head (simulate_iter ts init_actions revision) 0), w')
  | (Raise e, w') => (Raise e, w')
  end.
Proof. reflexivity. Qed.

Lemma next_suspended ts init_actions revision t (w : world) :
  next (MkGenerator ts init_actions revision (GenSuspended t)) w =
  match play revision w with
  | (Ok _, w') =>
      (Ok (loop_head (MkGenerator ts init_actions revision (GenSuspended t))
             (S t)), w')
  | (Raise e, w') => (Raise e, w')
  end.
Proof. reflexivity. Qed.

Lemma for_enumerate_resume {A} (body : nat -> view -> A -> M world A)
    ts init_actions revision rem :
  forall fuel t acc (w : world),
    ts = Z.of_nat (t + rem + 1) -> rem < fuel ->
    for_enumerate fuel (MkGenerator ts init_actions revision (GenSuspended t))
      (S t) body acc w
    = Some (resume rem revision body t acc w).
Proof.
  induction rem as [| rem IH]; intros fuel t acc w Hts Hfuel;
    (destruct fuel as [| fuel]; [lia |]);
    cbn [for_enumerate resume]; rewrite next_suspended;
    destruct (play revision w) as [[[] | e] w']; try done;
    unfold loop_head, gen_goto; cbn [gen_ts_length gen_init_actions gen_revision].
  - by rewrite decide_False by lia.
  - rewrite decide_True by lia.
    destruct (body (S t) current_actions acc w') as [[acc' | e] w'']; [| done].
    apply IH; lia.
Qed.

Lemma for_enumerate_run {A} (body : nat -> view -> A -> M world A)
    ts init_actions revision fuel acc (w : world) :
  Z.to_nat ts < fuel ->
  for_enumerate fuel (simulate_iter ts init_actions revision) 0 body acc w
  = Some (run_loop ts init_actions revision body acc w).
Proof.
  intros Hfuel. destruct fuel as [| fuel]; [lia |].
  cbn [for_enumerate]. rewrite next_created. unfold run_loop.
  destruct (set_init_actions init_actions w) as [[[] | e] w']; [| done].
  unfold loop_head, simulate_iter, gen_goto;
    cbn [gen_ts_length gen_init_actions gen_revision].
  case_decide as Hts.
  - rewrite decide_True by lia.
    destruct (body 0 current_actions acc w') as [[acc' | e] w'']; [| done].
    apply for_enumerate_resume; lia.
  - by rewrite decide_False by lia.
Qed.


(** ** Two loop bodies in lockstep *)

Section Lockstep.
Context {A B : Type} (R : nat -> A -> B -> Prop) (I : world -> Prop).
Context (body1 : nat -> view -> A -> M world A).
Context (body2 : nat -> view -> B -> M world B).
Context (revision : string) (bound : nat).
Hypothesis play_I : forall w, I w -> I (snd (play revision w)).
Hypothesis bodies :
  forall t a b w, I w -> t < bound -> R t a b ->
    exists a' b', body1 t current_actions a w = (Ok a', w) /\
                  body2 t current_actions b w = (Ok b', w) /\
                  R (S t) a' b'.

Lemma resume_lockstep rem :
  forall t a b w, I w -> t + rem + 1 = bound -> R (S t) a b ->
    alike (R bound) (resume rem revision body1 t a w)
                    (resume rem revision body2 t b w).
Proof.
  induction rem as [| rem IH]; intros t a b w HI Hb HR; cbn [resume];
    pose proof (play_I w HI) as HI';
    destruct (play revision w) as [[[] | e] w']; simpl in HI';
    try (by split).
  - split; [done |]. simpl. by replace bound with (S t) by lia.
  - destruct (bodies (S t) a b w') as (a' & b' & -> & -> & HR'); [done | lia | done |].
    apply IH; [done | lia | done].
Qed.

Lemma run_loop_lockstep ts init_actions a b w :
  I (snd (set_init_actions init_actions w)) ->
  Z.to_nat ts = bound -> R 0 a b ->
  alike (R bound) (run_loop ts init_actions revision body1 a w)
                  (run_loop ts init_actions revision body2 b w).
Proof.
  intros HI Hb HR. unfold run_loop.
  destruct (set_init_actions init_actions w) as [[[] | e] w']; simpl in HI;
    [| by split].
  case_decide as Hts.
  - destruct (bodies 0 a b w') as (a' & b' & -> & -> & HR'); [done | lia | done |].
    apply resume_lockstep; [done | lia | done].
  - split; [done |]. simpl. by replace bound with 0 by lia.
Qed.

End Lockstep.

(** Writing row [t] of a [ts] x [N] array against appending a copy. *)
Lemma assign_row_copy_item n T t (rows : list (list Z)) acc (w : world) :
  length (current_actions (self w)) = n ->
  t < T ->
  length rows = T /\ Forall (fun r => length r = n) rows /\ take t rows = acc ->
  exists rows' acc',
    assign_row t current_actions rows w = (Ok rows', w) /\
    copy_item t current_actions acc w = (Ok acc', w) /\
    (length rows' = T /\ Forall (fun r => length r = n) rows' /\
     take (S t) rows' = acc').
Proof.
  intros Hn Ht (Hlen & Hrows & Htake).
  destruct (lookup_lt_is_Some_2 rows t) as [row Hrow]; [lia |].
  exists (<[t := current_actions (self w)]> rows),
         (acc ++ [current_actions (self w)]).
  split; [| split; [done |]].
  - unfold assign_row, bind, get_self, lift, getitem. rewrite Hrow.
    rewrite broadcast_to_exact.
    + unfold setitem. by rewrite decide_True by lia.
    + rewrite Hn. symmetry. by eapply Forall_lookup_1 in Hrows.
  - rewrite length_insert. split; [done |]. split.
    + apply Forall_insert; done.
    + rewrite <- Htake. rewrite (take_S_r _ _ (current_actions (self w))).
      * by rewrite take_insert_ge by lia.
      * apply list_lookup_insert_eq. lia.
Qed.

Lemma keep_item_copy_item t (views : list view) (copies : list (list Z))
    (w : world) :
  views = replicate (length copies) current_actions ->
  exists views' copies',
    keep_item t current_actions views w = (Ok views', w) /\
    copy_item t current_actions copies w = (Ok copies', w) /\
    views' = replicate (length copies') current_actions.
Proof.
  intros ->. eexists _, _. split; [reflexivity |]. split; [reflexivity |].
  rewrite length_app. simpl.
  replace (length copies + 1) with (S (length copies)) by lia.
  by rewrite replicate_S_end.
Qed.

End EngineFacts.

(** * Invariants of the action state *)

Section Invariants.
Context {W : Type} `{NumW : Numeric W} `{PlayerW : PlayerAPI W}.

Lemma in_range_frame (li li' : LocalInteraction) a :
  same_frame li li' -> in_range li a -> in_range li' a.
Proof. intros (_ & _ & Hk & _). unfold in_range. by rewrite Hk. Qed.

Lemma br_sound_frame (li li' : LocalInteraction) :
  same_frame li li' -> br_sound li -> br_sound li'.
Proof.
  intros (_ & _ & Hk & Hp) Hbr p d Hin Hd. rewrite Hp in Hin.
  rewrite Hk in Hd. unfold in_range. rewrite Hk. by apply Hbr.
Qed.

Lemma broadcast_to_in_range (li : LocalInteraction) n v l :
  rhs_in_range li v -> broadcast_to n v = Ok l -> Forall (in_range li) l.
Proof.
  destruct v as [a | s]; simpl.
  - intros Ha [= <-]. by apply Forall_replicate.
  - intros Hs. case_decide.
    + by intros [= <-].
    + destruct s as [| a [| b s']]; try discriminate.
      intros [= <-]. apply Forall_replicate. by inversion Hs.
Qed.

Lemma assign_current_actions_in_range v (w : world) :
  rhs_in_range (self w) v ->
  Forall (in_range (self w)) (current_actions (self w)) ->
  Forall (in_range (self w))
    (current_actions (self (snd (assign_current_actions v w)))).
Proof.
  intros Hv Hold. rewrite assign_current_actions_run.
  destruct (broadcast_to _ v) as [l | e] eqn:Hb; simpl; [| done].
  by eapply broadcast_to_in_range.
Qed.

(** Random seeding succeeds when there is an action to draw, and every entry
    it writes is an action index. *)
Lemma set_init_actions_random_ok (w : world) :
  wf (self w) -> 0 < num_actions (self w) ->
  let d := draws (num_actions (self w)) (N (self w)) (np_random w) in
  set_init_actions None w =
    (Ok tt, MkWorld (with_indices (self w) (fst d)) (snd d)) /\
  Forall (in_range (self w)) (fst d).
Proof.
  intros Hwf Hk d. rewrite set_init_actions_random.
  rewrite decide_False by lia. cbn zeta. fold d.
  rewrite assign_current_actions_run. cbn [self np_random].
  rewrite broadcast_to_exact.
  - split; [done |]. by apply draws_range.
  - subst d. rewrite draws_length. symmetry. apply (wf_indices _ Hwf).
Qed.

Lemma set_init_actions_in_range init_actions (w : world) :
  wf (self w) ->
  (forall v, init_actions = Some v -> rhs_in_range (self w) v) ->
  Forall (in_range (self w)) (current_actions (self w)) ->
  Forall (in_range (self w))
    (current_actions (self (snd (set_init_actions init_actions w)))).
Proof.
  intros Hwf Hv Hold. destruct init_actions as [v |].
  - rewrite set_init_actions_explicit.
    apply assign_current_actions_in_range; auto.
  - destruct (decide (num_actions (self w) = 0)) as [Hk | Hk].
    + rewrite set_init_actions_random. by rewrite decide_True.
    + destruct (set_init_actions_random_ok w) as [-> Hr]; [done | lia |].
      done.
Qed.

Lemma simultaneous_responses_in_range (li : LocalInteraction) :
  wf li -> br_sound li -> Forall (in_range li) (simultaneous_responses li).
Proof.
  intros Hwf Hbr. apply Forall_lookup_2. intros i a.
  unfold simultaneous_responses. rewrite lookup_zip_with.
  destruct (players li !! i) as [p |] eqn:Hp; [| done]. simpl.
  destruct (dot_toarray _ _ !! i) as [d |] eqn:Hd; [| done]. simpl.
  intros [= <-]. apply Hbr.
  - by eapply list_elem_of_lookup_2.
  - pose proof (lookup_lt_Some _ _ _ Hd) as Hi.
    rewrite dot_toarray_length in Hi.
    rewrite dot_toarray_lookup in Hd by done. injection Hd as <-.
    by rewrite dense_row_length, (wf_shape _ Hwf).
Qed.

Lemma sequential_response_in_range (li : LocalInteraction) i :
  wf li -> br_sound li -> Forall (in_range li) (current_actions li) ->
  Forall (in_range li) (sequential_response li i).
Proof.
  intros Hwf Hbr Hold. unfold sequential_response.
  destruct (players li !! i) as [p |] eqn:Hp; [| done].
  destruct (dot_toarray _ _ !! i) as [d |] eqn:Hd; [| done].
  apply Forall_insert; [done |]. apply Hbr.
  - by eapply list_elem_of_lookup_2.
  - pose proof (lookup_lt_Some _ _ _ Hd) as Hi.
    rewrite dot_toarray_length in Hi.
    rewrite dot_toarray_lookup in Hd by done. injection Hd as <-.
    by rewrite dense_row_length, (wf_shape _ Hwf).
Qed.

Lemma play_in_range revision (w : world) :
  wf (self w) -> br_sound (self w) ->
  Forall (in_range (self w)) (current_actions (self w)) ->
  Forall (in_range (self w)) (current_actions (self (snd (play revision w)))).
Proof.
  intros Hwf Hbr Hold.
  destruct (decide (revision = "simultaneous")) as [-> | Hsim].
  { rewrite play_simultaneous_eq, play_simultaneous_run; try done.
    - by apply simultaneous_responses_in_range.
    - apply length_replicate. }
  destruct (decide (revision = "sequential")) as [-> | Hseq].
  { destruct (decide (N (self w) = 0)) as [HN | HN].
    - by rewrite play_sequential_empty.
    - rewrite play_sequential_run by (done || lia). simpl.
      by apply sequential_response_in_range. }
  by rewrite play_unrecognized by done.
Qed.

(** Every engine a caller can hold is well formed, has an action to play,
    and holds action indices only. *)
Lemma reachable_valid (w : world) :
  reachable w ->
  wf (self w) /\ 0 < num_actions (self w) /\
  (br_sound (self w) -> Forall (in_range (self w)) (current_actions (self w))).
Proof.
  induction 1 as [payoff adj li r Hinit Hk
                 | w init_actions Hreach (Hwf & Hk & IH) Hv
                 | w revision Hreach (Hwf & Hk & IH)].
  - split; [by eapply init_wf |]. split; [done |]. intros _.
    destruct (init_ok _ _ _ Hinit) as (_ & _ & _ & Hli).
    rewrite Hli in *. unfold current_actions; simpl.
    apply Forall_replicate. unfold in_range; simpl in *. lia.
  - destruct (set_init_actions_wf init_actions w Hwf) as [Hwf' Hfr].
    split; [done |]. split; [destruct Hfr as (_ & _ & -> & _); done |].
    intros Hbr. apply (br_sound_frame _ (self w)) in Hbr.
    2:{ destruct Hfr as (? & ? & ? & ?). by repeat split. }
    eapply Forall_impl; [apply set_init_actions_in_range; auto |].
    intros a. by apply in_range_frame.
  - destruct (play_wf revision w Hwf) as [Hwf' Hfr].
    split; [done |]. split; [destruct Hfr as (_ & _ & -> & _); done |].
    intros Hbr. apply (br_sound_frame _ (self w)) in Hbr.
    2:{ destruct Hfr as (? & ? & ? & ?). by repeat split. }
    eapply Forall_impl; [apply play_in_range; auto |].
    intros a. by apply in_range_frame.
Qed.

End Invariants.

(** * The trajectory *)

Section Trajectory.
Context {W : Type} `{NumW : Numeric W} `{PlayerW : PlayerAPI W}.

Lemma seedable_frame (li li' : LocalInteraction) init_actions :
  same_frame li li' -> seedable li init_actions -> seedable li' init_actions.
Proof.
  intros (_ & Hn & Hk & _). unfold seedable.
  destruct init_actions as [[a | l] |]; by rewrite ?Hn, ?Hk.
Qed.

Lemma seedable_broadcast (li : LocalInteraction) v :
  wf li -> seedable li (Some v) ->
  exists l, broadcast_to (length (current_actions li)) v = Ok l /\
            length l = N li.
Proof.
  intros Hwf Hv. rewrite (wf_indices _ Hwf).
  destruct v as [a | l]; simpl in *.
  - eexists. split; [done |]. apply length_replicate.
  - case_decide as Hl; [by eexists |].
    destruct Hv as [Hv | Hv]; [done |].
    destruct l as [| a [| b l']]; try done.
    eexists. split; [done |]. apply length_replicate.
Qed.

Lemma set_init_actions_ok init_actions (w : world) :
  wf (self w) -> seedable (self w) init_actions ->
  fst (set_init_actions init_actions w) = Ok tt.
Proof.
  intros Hwf Hs. destruct init_actions as [v |].
  - rewrite set_init_actions_explicit, assign_current_actions_run.
    destruct (seedable_broadcast _ _ Hwf Hs) as (l & -> & _). done.
  - by destruct (set_init_actions_random_ok w Hwf Hs) as [-> _].
Qed.

(** Explicit seeding is idempotent. *)
Lemma set_init_actions_explicit_twice v (w : world) :
  (do_ set_init_actions (Some v) ;; set_init_actions (Some v)) w
  = set_init_actions (Some v) w.
Proof.
  unfold bind. rewrite !set_init_actions_explicit, assign_current_actions_run.
  destruct (broadcast_to _ v) as [l | e] eqn:Hb; [| done].
  rewrite set_init_actions_explicit, assign_current_actions_run.
  cbn [self np_random].
  rewrite current_actions_with_indices, (broadcast_to_idem _ _ _ Hb).
  by rewrite with_indices_twice.
Qed.

(** Random seeding overwrites the whole buffer: what it held before, and so
    what an earlier seeding drew, leaves no trace. *)
Lemma set_init_actions_random_overwrites (li : LocalInteraction) l r :
  wf li -> 0 < num_actions li -> length l = N li ->
  set_init_actions None (MkWorld (with_indices li l) r)
  = set_init_actions None (MkWorld li r).
Proof.
  intros Hwf Hk Hl.
  destruct (set_init_actions_random_ok (MkWorld li r)) as [-> _]; [done.. |].
  destruct (set_init_actions_random_ok (MkWorld (with_indices li l) r))
    as [-> _]; [by apply wf_with_indices | done |].
  reflexivity.
Qed.

(** Random seeding after random seeding: the first draw only moved the
    tape. *)
Lemma set_init_actions_random_twice (w : world) :
  wf (self w) -> 0 < num_actions (self w) ->
  set_init_actions None (snd (set_init_actions None w))
  = set_init_actions None (skip_draws (N (self w)) w).
Proof.
  intros Hwf Hk.
  destruct (set_init_actions_random_ok w) as [-> _]; [done.. |].
  cbn [snd]. rewrite draws_state.
  rewrite set_init_actions_random_overwrites; [done.. |].
  apply draws_length.
Qed.

Lemma play_step revision (w : world) :
  fst (play revision w) = Ok tt ->
  play revision w = (Ok tt, step revision w).
Proof. unfold step. destruct (play revision w); simpl. by intros ->. Qed.

(** Copying at each yield records the action profile before each revision. *)
Section Copies.
Context (revision : string) (I : world -> Prop).
Hypothesis play_I : forall w, I w ->
  fst (play revision w) = Ok tt /\ I (step revision w).

Lemma resume_copy_item rem :
  forall t acc (w : world), I w ->
    resume rem revision copy_item t acc w
    = (Ok (acc ++ profiles revision w 1 rem),
       Nat.iter (S rem) (step revision) w).
Proof.
  induction rem as [| rem IH]; intros t acc w HI; cbn [resume];
    destruct (play_I w HI) as [Hok HI']; rewrite (play_step _ _ Hok).
  - unfold profiles. simpl. by rewrite app_nil_r.
  - unfold copy_item at 1. unfold bind, get_self, ret.
    rewrite IH by done. f_equal.
    + f_equal. rewrite <- app_assoc. f_equal. unfold profiles.
      cbn [seq fmap list_fmap]. f_equal.
      rewrite <- (fmap_S_seq 1 rem), <- list_fmap_compose.
      apply list_fmap_ext. intros _ k _. simpl.
      by rewrite <- Nat.iter_succ_r.
    + by rewrite <- Nat.iter_succ_r.
Qed.

Lemma run_loop_copy_item ts init_actions (w : world) :
  fst (set_init_actions init_actions w) = Ok tt ->
  I (snd (set_init_actions init_actions w)) ->
  run_loop ts init_actions revision copy_item [] w
  = (Ok (profiles revision (snd (set_init_actions init_actions w)) 0
           (Z.to_nat ts)),
     Nat.iter (Z.to_nat ts) (step revision)
       (snd (set_init_actions init_actions w))).
Proof.
  intros Hok HI. unfold run_loop.
  destruct (set_init_actions init_actions w) as [o w0]; simpl in *. subst o.
  case_decide as Hts.
  - unfold copy_item at 1. unfold bind, get_self, ret.
    rewrite resume_copy_item by done.
    destruct (Z.to_nat ts) as [| n] eqn:Hn; [lia |].
    replace (S n - 1) with n by lia. reflexivity.
  - replace (Z.to_nat ts) with 0 by lia. reflexivity.
Qed.

End Copies.

End Trajectory.

Section Simulate.
Context {W : Type} `{NumW : Numeric W} `{PlayerW : PlayerAPI W}.

Lemma alike_eq {A} (R : A -> A -> Prop) (r1 r2 : outcome A * world) :
  (forall a b, R a b -> a = b) -> alike R r1 r2 -> r1 = r2.
Proof.
  intros HR. destruct r1 as [[a | e1] w1], r2 as [[b | e2] w2].
  all: intros [Hw Ho]; simpl in *; subst; try done.
  by rewrite (HR _ _ Ho).
Qed.

(** Filling the rows of the result array and collecting copies are the same
    loop. *)
Lemma run_loop_assign_row ts init_actions revision (w : world) :
  wf (self w) ->
  run_loop ts init_actions revision assign_row
    (replicate (Z.to_nat ts) (np_empty (N (self w)))) w
  = run_loop ts init_actions revision copy_item [] w.
Proof.
  intros Hwf. set (n := N (self w)). set (T := Z.to_nat ts).
  eapply alike_eq; last first.
  - apply (run_loop_lockstep
             (fun t rows acc =>
                length rows = T /\ Forall (fun r => length r = n) rows /\
                take t rows = acc)
             (fun w' => wf (self w') /\ N (self w') = n)
             assign_row copy_item revision T).
    + intros w' [Hwf' Hn]. destruct (play_wf revision w' Hwf') as [? Hfr].
      split; [done |]. destruct Hfr as (_ & -> & _). done.
    + intros t rows acc w' [Hwf' Hn] Ht HR.
      eapply assign_row_copy_item; [| done | done].
      by rewrite (wf_indices _ Hwf').
    + destruct (set_init_actions_wf init_actions w Hwf) as [? Hfr].
      split; [done |]. by destruct Hfr as (_ & -> & _).
    + done.
    + split; [apply length_replicate |]. split; [| done].
      apply Forall_replicate. apply length_replicate.
  - intros rows acc (Hlen & _ & <-). simpl. by rewrite take_ge by lia.
Qed.

(** [simulate] seeds, and then is the iterator drained with a copy taken at
    every yield. *)
Lemma simulate_bounded_copies fuel fuel' ts init_actions revision (w : world) :
  wf (self w) -> (0 <= ts)%Z ->
  Z.to_nat ts < fuel -> Z.to_nat ts < fuel' ->
  simulate_bounded fuel ts init_actions revision w =
  match set_init_actions init_actions w with
  | (Ok _, w1) => copies_of fuel' (simulate_iter ts init_actions revision) w1
  | (Raise e, w1) => Some (Raise e, w1)
  end.
Proof.
  intros Hwf Hts Hfuel Hfuel'. unfold simulate_bounded.
  destruct (set_init_actions_wf init_actions w Hwf) as [Hwf1 _].
  destruct (set_init_actions init_actions w) as [[[] | e] w1]; [| done].
  simpl in Hwf1. unfold np_empty2. rewrite decide_False by lia.
  unfold copies_of. rewrite !for_enumerate_run by done.
  by rewrite run_loop_assign_row.
Qed.

Lemma simulate_fuel_irrelevant fuel ts init_actions revision (w : world) :
  wf (self w) -> (0 <= ts)%Z -> Z.to_nat ts < fuel ->
  simulate_bounded fuel ts init_actions revision w
  = simulate ts init_actions revision w.
Proof.
  intros Hwf Hts Hfuel. unfold simulate.
  rewrite !(simulate_bounded_copies _ (S (Z.to_nat ts))); auto.
Qed.

Lemma playable_step revision (w : world) :
  recognized revision -> playable revision w ->
  fst (play revision w) = Ok tt /\ playable revision (step revision w).
Proof.
  intros Hrec [Hwf HN]. split; [by apply play_ok |].
  destruct (play_wf revision w Hwf) as [Hwf' (_ & Hn & _)].
  split; [done |]. unfold step. by rewrite Hn.
Qed.

Lemma playable_iter revision (w : world) t :
  recognized revision -> playable revision w ->
  playable revision (Nat.iter t (step revision) w).
Proof.
  intros Hrec Hp. induction t as [| t IH]; [done |].
  rewrite Nat.iter_succ. by apply playable_step.
Qed.

Lemma copies_of_profiles fuel ts init_actions revision (w : world) :
  wf (self w) -> seedable (self w) init_actions -> recognized revision ->
  (revision = "sequential" -> 0 < N (self w)) ->
  Z.to_nat ts < fuel ->
  let w0 := snd (set_init_actions init_actions w) in
  copies_of fuel (simulate_iter ts init_actions revision) w
  = Some (Ok (profiles revision w0 0 (Z.to_nat ts)),
          Nat.iter (Z.to_nat ts) (step revision) w0).
Proof.
  intros Hwf Hseed Hrec HN Hfuel w0. unfold copies_of.
  rewrite for_enumerate_run by done. f_equal.
  apply (run_loop_copy_item revision (playable revision)).
  - intros w'. by apply playable_step.
  - by apply set_init_actions_ok.
  - destruct (set_init_actions_wf init_actions w Hwf) as [? (_ & Hn & _)].
    split; [done |]. rewrite Hn. done.
Qed.

Lemma profiles_length revision (w : world) from n :
  length (profiles revision w from n) = n.
Proof. unfold profiles. by rewrite length_fmap, length_seq. Qed.

Lemma profiles_lookup revision (w : world) n t :
  t < n ->
  profiles revision w 0 n !! t
  = Some (current_actions (self (Nat.iter t (step revision) w))).
Proof.
  intros Ht. unfold profiles. by rewrite list_lookup_fmap, lookup_seq_lt.
Qed.

End Simulate.

(** * The product row and the choice of an agent *)

Section ProductRows.
Context {W : Type} `{NumW : Numeric W} `{PlayerW : PlayerAPI W}.

(** Summing the stored entries of the product row entry by entry. *)
Lemma col_sum_dot_row (li : LocalInteraction) k (es : list (Z * W)) acc :
  wf li ->
  Forall (fun e => (0 <= fst e < Z.of_nat (N li))%Z) es ->
  foldl (fun acc e =>
           if Z.eqb (fst e) (Z.of_nat k) then add acc (snd e) else acc)
    acc
    (es ≫= (fun e =>
       if decide (0 <= fst e)%Z
       then (fun f => (fst f, mul (snd e) (of_int (snd f))))
              <$> csr_row (current_actions_mixed li) (Z.to_nat (fst e))
       else []))
  = foldl (fun acc e =>
             if decide (current_actions li !! Z.to_nat (fst e)
                        = Some (Z.of_nat k))
             then add acc (mul (snd e) (of_int 1%Z))
             else acc)
      acc es.
Proof.
  intros Hwf Hes. revert acc.
  induction Hes as [| [j x] es [Hj0 HjN] _ IH]; intros acc; [done |].
  rewrite bind_cons, foldl_app. cbn [foldl fst snd]. rewrite <- IH.
  f_equal. rewrite decide_True by done.
  destruct (lookup_lt_is_Some_2 (current_actions li) (Z.to_nat j)) as [a Ha].
  { rewrite (wf_indices _ Hwf). simpl in *. lia. }
  rewrite (mixed_row _ _ _ Hwf Ha), Ha. cbn [fmap list_fmap foldl fst snd].
  destruct (Z.eqb_spec a (Z.of_nat k)) as [-> | Hne].
  - by rewrite decide_True.
  - rewrite decide_False; [done |]. congruence.
Qed.

(** Entry [k] of row [i] of the product is the tally of the neighbours of
    [i] that play [k]. *)
Lemma product_row_tally (li : LocalInteraction) i k :
  wf li -> adjacency_columns_valid li -> k < num_actions li ->
  dense_row (num_actions li)
    (dot_row (adj_matrix li) (current_actions_mixed li) i) !! k
  = Some (neighbour_tally li i k).
Proof.
  intros Hwf Hcols Hk. rewrite dense_row_lookup by done. f_equal.
  unfold col_sum, dot_row, neighbour_tally. by apply col_sum_dot_row.
Qed.

Lemma filter_none {A} (P : A -> Prop) `{forall x, Decision (P x)} (l : list A) :
  Forall (fun x => ~ P x) l -> filter P l = [].
Proof.
  induction 1 as [| x l Hx _ IH]; [done |].
  by rewrite filter_cons_False.
Qed.

(** Among [n] consecutive values starting at a multiple of [n], exactly one
    leaves the remainder [k]. *)
Lemma one_per_period n m k :
  k < n ->
  length (filter (fun c => c `mod` n = k) (seq (n * m) n)) = 1.
Proof.
  intros Hk.
  assert (Hmod : forall x, n * m <= x < n * m + n -> x `mod` n = x - n * m).
  { intros x Hx. symmetry. apply (Nat.mod_unique x n m); lia. }
  assert (Hs : seq (n * m) n
               = seq (n * m) k ++ seq (n * m + k) 1
                 ++ seq (n * m + k + 1) (n - k - 1)).
  { rewrite <- !seq_app. f_equal. lia. }
  rewrite Hs, !filter_app, !length_app.
  rewrite (filter_none _ (seq (n * m) k)).
  2:{ apply Forall_forall. intros x Hx%elem_of_seq. rewrite Hmod; lia. }
  rewrite (filter_none _ (seq _ (n - k - 1))).
  2:{ apply Forall_forall. intros x Hx%elem_of_seq. rewrite Hmod; lia. }
  cbn [seq]. rewrite filter_cons_True; [done |]. rewrite Hmod; lia.
Qed.

Lemma equally_often n m k :
  k < n ->
  length (filter (fun c => c `mod` n = k) (seq 0 (n * m))) = m.
Proof.
  intros Hk. induction m as [| m IH].
  - by rewrite Nat.mul_0_r.
  - replace (n * S m) with (n * m + n) by lia.
    rewrite seq_app, filter_app, length_app, IH. cbn [Nat.add].
    rewrite one_per_period by done. lia.
Qed.

Lemma selected_agent_set_cell c (w : world) :
  0 < N (self w) ->
  selected_agent (set_cell c w) = Ok (c `mod` N (self w)).
Proof.
  intros HN. unfold selected_agent, set_cell, choice_range.
  cbn [self np_random]. rewrite decide_False by lia.
  cbn [draw fst tape pos]. by rewrite Nat.eqb_refl.
Qed.

(** The agent chosen is a balanced function of the cell read: over any whole
    number of periods of its values, every agent is chosen equally often. *)
Lemma selected_agent_balanced (w : world) m k :
  0 < N (self w) -> k < N (self w) ->
  length (filter (fun c => selected_agent (set_cell c w) = Ok k)
            (seq 0 (N (self w) * m))) = m.
Proof.
  intros HN Hk.
  transitivity (length (filter (fun c => c `mod` N (self w) = k)
                          (seq 0 (N (self w) * m))));
    [| by apply equally_often].
  f_equal. apply list_filter_iff. intros c. rewrite selected_agent_set_cell by done.
  split; [by intros [= ->] | by intros ->].
Qed.

End ProductRows.

(** * The claims *)

Section Claims.
Context {W : Type} `{NumW : Numeric W} `{PlayerW : PlayerAPI W}.

(** C1. A simultaneous [play] computes every agent's opponent distribution
    as row [i] of the product of the adjacency matrix with the mixed state
    it starts from, takes every best response from that same state, and only
    then writes the N new actions; the random source is not touched.  Entry
    [k] of that row is the tally of the stored weights of the neighbours of
    [i] that play [k] before the call, when the adjacency matrix stores
    agents as columns.  The result is the same for every order in which the
    agents are processed and whatever the scratch array held. *)
Theorem play_simultaneous_snapshot (w : world) order scratch :
  wf (self w) ->
  order ≡ₚ enumerate (players (self w)) ->
  length scratch = N (self w) ->
  let li := self w in
  let opponent_act_dists :=
    dot_toarray (adj_matrix li) (current_actions_mixed li) in
  exists w',
    play "simultaneous" w = (Ok tt, w') /\
    play_simultaneous order scratch w = (Ok tt, w') /\
    np_random w' = np_random w /\
    same_frame li (self w') /\
    length (current_actions (self w')) = N li /\
    forall i, i < N li ->
      exists p d,
        players li !! i = Some p /\
        opponent_act_dists !! i = Some d /\
        d = dense_row (num_actions li)
              (dot_row (adj_matrix li) (current_actions_mixed li) i) /\
        length d = num_actions li /\
        (adjacency_columns_valid li ->
         forall k, k < num_actions li ->
           d !! k = Some (neighbour_tally li i k)) /\
        current_actions (self w') !! i = Some (best_response p d).
Proof.
  intros Hwf Hperm Hscratch li opp.
  change (wf li) in Hwf.
  exists (MkWorld (with_indices li (simultaneous_responses li)) (np_random w)).
  split.
  { rewrite play_simultaneous_eq. apply play_simultaneous_run; try done.
    apply length_replicate. }
  split; [by apply play_simultaneous_run |].
  split; [done |]. split; [apply same_frame_with_indices |].
  split; [by apply simultaneous_responses_length |].
  intros i Hi.
  destruct (lookup_lt_is_Some_2 (players li) i) as [p Hp];
    [by rewrite (wf_players _ Hwf) |].
  exists p, (dense_row (num_actions li)
               (dot_row (adj_matrix li) (current_actions_mixed li) i)).
  assert (Hopp : opp !! i = Some (dense_row (num_actions li)
               (dot_row (adj_matrix li) (current_actions_mixed li) i))).
  { subst opp. rewrite dot_toarray_lookup by (by rewrite (wf_adj _ Hwf)).
    by rewrite (wf_shape _ Hwf). }
  split; [done |]. split; [done |]. split; [done |].
  split; [apply dense_row_length |]. split.
  { intros Hcols k Hk. by apply product_row_tally. }
  cbn [self]. rewrite current_actions_with_indices.
  unfold simultaneous_responses. fold opp.
  by rewrite lookup_zip_with, Hp, Hopp.
Qed.

(** C2. A sequential [play] selects one agent index below N, the one
    [np.random.choice] returns on the cell of the random source it reads; the
    choice is a balanced function of that cell (over any whole number of
    periods of the cell's values every agent is selected equally often, so
    the choice is uniform when the cell is), and any index below N can be the
    one selected.  It computes that agent's opponent distribution as its
    adjacency row times the current mixed state, which is row [i] of the full
    product and holds the tallies of the neighbours' actions; it writes the
    best response into that agent's entry and leaves every other entry and
    every other field as it was. *)
Theorem play_sequential_frame (w : world) :
  wf (self w) -> 0 < N (self w) ->
  let li := self w in
  let i := fst (draw (N li) (np_random w)) in
  i < N li /\
  selected_agent w = Ok i /\
  (forall k, k < N li -> exists r, fst (draw (N li) r) = k) /\
  (forall m k, k < N li ->
     length (filter (fun c => selected_agent (set_cell c w) = Ok k)
               (seq 0 (N li * m))) = m) /\
  exists p row d w',
    players li !! i = Some p /\
    getrow (adj_matrix li) i = Ok row /\
    dot_toarray row (current_actions_mixed li) !! 0 = Some d /\
    dot_toarray (adj_matrix li) (current_actions_mixed li) !! i = Some d /\
    length d = num_actions li /\
    (adjacency_columns_valid li ->
     forall k, k < num_actions li -> d !! k = Some (neighbour_tally li i k)) /\
    play "sequential" w = (Ok tt, w') /\
    current_actions (self w') = <[i := best_response p d]> (current_actions li) /\
    (forall j, j <> i ->
       current_actions (self w') !! j = current_actions li !! j) /\
    same_frame li (self w') /\
    np_random w' = snd (draw (N li) (np_random w)).
Proof.
  intros Hwf HN li i.
  change (wf li) in Hwf. change (0 < N li) in HN.
  assert (Hi : i < N li).
  { subst i. simpl. apply Nat.mod_upper_bound. lia. }
  split; [done |]. split.
  { unfold selected_agent, choice_range. fold li.
    by rewrite decide_False by lia. }
  split.
  { intros k Hk. exists (MkRandomState (fun _ => k) 0). simpl.
    by apply Nat.mod_small. }
  split.
  { intros m k Hk. by apply selected_agent_balanced. }
  destruct (lookup_lt_is_Some_2 (players li) i) as [p Hp];
    [by rewrite (wf_players _ Hwf) |].
  assert (Hrow : exists row, getrow (adj_matrix li) i = Ok row).
  { unfold getrow. rewrite decide_True by (by rewrite (wf_adj _ Hwf)).
    by eexists. }
  destruct Hrow as [row Hrow].
  pose proof (dot_toarray_getrow _ _ (current_actions_mixed li) _ Hrow) as Hd.
  assert (Hfull : dot_toarray (adj_matrix li) (current_actions_mixed li) !! i
                  = Some (dense_row (num_actions li)
                            (dot_row (adj_matrix li)
                               (current_actions_mixed li) i))).
  { rewrite dot_toarray_lookup by (by rewrite (wf_adj _ Hwf)).
    by rewrite (wf_shape _ Hwf). }
  rewrite Hfull in Hd.
  eexists p, row, _, _. split; [done |]. split; [done |]. split; [exact Hd |].
  split; [exact Hfull |]. split; [apply dense_row_length |]. split.
  { intros Hcols k Hk. by apply product_row_tally. }
  split; [by apply play_sequential_run |]. cbn [self np_random].
  rewrite current_actions_with_indices.
  assert (Hresp : sequential_response li i
                  = <[i := best_response p
                             (dense_row (num_actions li)
                                (dot_row (adj_matrix li)
                                   (current_actions_mixed li) i))]>
                    (current_actions li)).
  { unfold sequential_response. by rewrite Hp, Hfull. }
  fold li i. rewrite Hresp. split; [done |]. split.
  { intros j Hj. by rewrite list_lookup_insert_ne. }
  split; [apply same_frame_with_indices | done].
Qed.

(** C3. Dual-representation consistency is an invariant.  In every engine a
    caller can hold (built by the constructor with at least one action, then
    seeded with action indices or at random and revised in either mode, in
    any number and order), row [i] of the dense mixed form is zero except
    for a one in column [current_actions[i]], provided the external
    capability answers with action indices.  The constructor leaves every
    agent at action 0, and seeding without explicit actions succeeds and
    writes action indices only. *)
Theorem dual_representation_invariant (w : world) :
  reachable w -> br_sound (self w) ->
  consistent (self w) /\
  (forall payoff_matrix adj li,
     init payoff_matrix adj = Ok li ->
     current_actions li = replicate (N li) 0%Z) /\
  exists w',
    set_init_actions None w = (Ok tt, w') /\
    Forall (in_range (self w')) (current_actions (self w')) /\
    consistent (self w').
Proof.
  intros Hreach Hbr.
  destruct (reachable_valid w Hreach) as (Hwf & Hk & Hrange).
  split; [apply wf_consistent; auto |]. split.
  { intros payoff adj li Hinit.
    by destruct (init_ok _ _ _ Hinit) as (_ & _ & _ & ->). }
  destruct (set_init_actions_random_ok w Hwf Hk) as [Hrun Hr].
  eexists. split; [exact Hrun |]. cbn [self].
  assert (Hr' : Forall (in_range (with_indices (self w)
              (fst (draws (num_actions (self w)) (N (self w)) (np_random w)))))
            (fst (draws (num_actions (self w)) (N (self w)) (np_random w))))
    by exact Hr.
  split; [done |]. apply wf_consistent; [| done].
  apply wf_with_indices; [done |]. apply draws_length.
Qed.

(** C6. [play] with a revision mode that is neither of the two recognized
    ones raises [ValueError] and changes nothing: the engine, with both forms
    of the action state, and the random source are as before the call. *)
Theorem play_unrecognized_atomic revision (w : world) :
  revision <> "simultaneous" -> revision <> "sequential" ->
  play revision w = (Raise (ValueError EmptyString), w) /\
  current_actions (self (snd (play revision w))) = current_actions (self w) /\
  current_actions_mixed (self (snd (play revision w)))
  = current_actions_mixed (self w).
Proof.
  intros H1 H2. by rewrite play_unrecognized.
Qed.

(** C7. The constructor raises [ValueError] exactly when the adjacency
    matrix or the payoff matrix is not square; on square inputs it returns an
    engine whose N is the dimension of the adjacency matrix and whose number
    of actions is the dimension of the payoff matrix. *)
Theorem init_fails_iff_not_square payoff_matrix (adj : csr_matrix W) :
  ((exists msg, init payoff_matrix adj = Raise (ValueError msg)) <->
   ~ square_adjacency adj \/ ~ square_payoff payoff_matrix) /\
  ((exists li, init payoff_matrix adj = Ok li) <->
   square_adjacency adj /\ square_payoff payoff_matrix) /\
  (forall li, init payoff_matrix adj = Ok li ->
     shape adj = (N li, N li) /\
     nd_shape payoff_matrix = [num_actions li; num_actions li]).
Proof.
  assert (Hpay : square_payoff payoff_matrix <->
                 ndim payoff_matrix = 2 /\
                 nth 0 (nd_shape payoff_matrix) 0
                 = nth 1 (nd_shape payoff_matrix) 0).
  { unfold square_payoff, ndim. split.
    - intros [n ->]. done.
    - destruct (nd_shape payoff_matrix) as [| a [| b [| c s]]]; simpl;
        intros [Hlen Hab]; try done. subst. by eexists. }
  assert (Hcases : (exists li, init payoff_matrix adj = Ok li /\
                      square_adjacency adj /\ square_payoff payoff_matrix /\
                      shape adj = (N li, N li) /\
                      nd_shape payoff_matrix = [num_actions li; num_actions li])
                   \/ ((exists msg, init payoff_matrix adj = Raise (ValueError msg))
                       /\ (~ square_adjacency adj \/ ~ square_payoff payoff_matrix))).
  { unfold init, square_adjacency.
    destruct (shape adj) as [m n]; simpl.
    destruct (Nat.eqb_spec n m) as [-> | Hnm]; simpl.
    2:{ right. split; [by eexists |]. left. congruence. }
    destruct (Nat.eqb_spec (ndim payoff_matrix) 2) as [Hd | Hd]; simpl.
    2:{ right. split; [by eexists |]. right. rewrite Hpay. tauto. }
    destruct (Nat.eqb_spec (nth 0 (nd_shape payoff_matrix) 0)
                           (nth 1 (nd_shape payoff_matrix) 0)) as [Hs | Hs];
      simpl.
    2:{ right. split; [by eexists |]. right. rewrite Hpay. tauto. }
    left. eexists. split; [done |]. simpl.
    split; [done |]. split; [by apply Hpay |]. split; [done |].
    clear Hpay. unfold ndim in Hd.
    destruct (nd_shape payoff_matrix) as [| a [| b [| c s]]]; simpl in *;
      try done. by subst. }
  destruct Hcases as [(li & Hli & Ha & Hp & Hshape & Hnd)
                     | ([msg Hmsg] & Hnot)].
  - rewrite Hli. split; [| split].
    + split; [intros [? [=]] | tauto].
    + split; [done | by eexists].
    + by intros ? [= <-].
  - rewrite Hmsg. split; [| split].
    + split; [done | by eexists].
    + split; [intros [? [=]] | tauto].
    + by intros ? [=].
Qed.

(** C10. Seeding with a single scalar, or with a sequence of length one,
    does not raise: the value is broadcast to all N agents. *)
Theorem set_init_actions_broadcasts a (w : world) :
  wf (self w) ->
  set_init_actions (Some (Scalar a)) w
  = (Ok tt, MkWorld (with_indices (self w) (replicate (N (self w)) a))
              (np_random w)) /\
  set_init_actions (Some (Sequence [a])) w
  = (Ok tt, MkWorld (with_indices (self w) (replicate (N (self w)) a))
              (np_random w)) /\
  current_actions (with_indices (self w) (replicate (N (self w)) a))
  = replicate (N (self w)) a.
Proof.
  intros Hwf.
  rewrite !set_init_actions_explicit, !assign_current_actions_run.
  rewrite broadcast_to_single. cbn [broadcast_to].
  by rewrite (wf_indices _ Hwf).
Qed.

End Claims.

Section TrajectoryClaims.
Context {W : Type} `{NumW : Numeric W} `{PlayerW : PlayerAPI W}.

Lemma bind_seed_twice init_actions (w : world) :
  fst (set_init_actions init_actions w) = Ok tt ->
  (do_ set_init_actions init_actions ;; set_init_actions init_actions) w
  = set_init_actions init_actions (snd (set_init_actions init_actions w)).
Proof.
  unfold bind. destruct (set_init_actions init_actions w) as [o w1]; simpl.
  by intros ->.
Qed.

(** The run of [simulate] on accepted arguments. *)
Lemma simulate_run ts init_actions revision (w : world) :
  wf (self w) -> (0 <= ts)%Z -> seedable (self w) init_actions ->
  recognized revision ->
  (revision = "sequential" -> 0 < N (self w)) ->
  let seed := do_ set_init_actions init_actions ;;
              set_init_actions init_actions in
  let w0 := snd (seed w) in
  fst (seed w) = Ok tt /\
  playable revision w0 /\ same_frame (self w) (self w0) /\
  simulate ts init_actions revision w
  = Some (Ok (profiles revision w0 0 (Z.to_nat ts)),
          Nat.iter (Z.to_nat ts) (step revision) w0).
Proof.
  intros Hwf Hts Hseed Hrec HN seed w0.
  pose proof (set_init_actions_ok _ _ Hwf Hseed) as Hok1.
  destruct (set_init_actions_wf init_actions w Hwf) as [Hwf1 Hfr1].
  set (w1 := snd (set_init_actions init_actions w)) in *.
  assert (Hseed1 : seedable (self w1) init_actions)
    by (by eapply seedable_frame).
  pose proof (set_init_actions_ok _ _ Hwf1 Hseed1) as Hok2.
  destruct (set_init_actions_wf init_actions w1 Hwf1) as [Hwf2 Hfr2].
  assert (Hw0 : w0 = snd (set_init_actions init_actions w1)).
  { subst w0 seed. by rewrite bind_seed_twice. }
  split; [subst seed; by rewrite bind_seed_twice |].
  pose proof (same_frame_trans _ _ _ Hfr1 Hfr2) as Hfr.
  rewrite <- Hw0 in Hfr, Hwf2.
  split.
  { split; [done |]. destruct Hfr as (_ & -> & _). done. }
  split; [done |].
  unfold simulate.
  rewrite (simulate_bounded_copies _ (S (Z.to_nat ts))) by (done || lia).
  destruct (set_init_actions init_actions w) as [o w1'] eqn:Hrun.
  simpl in Hok1. subst o. subst w1. cbn [snd] in *.
  rewrite copies_of_profiles; try done.
  - by rewrite <- Hw0.
  - destruct Hfr1 as (_ & -> & _). done.
  - lia.
Qed.



(** What a consumer that keeps the yielded objects reads in them once the
    iteration is over. *)
Lemma list_of_copies_of fuel ts init_actions revision (w : world) :
  Z.to_nat ts < fuel ->
  exists r1 r2,
    list_of fuel (simulate_iter ts init_actions revision) w = Some r1 /\
    copies_of fuel (simulate_iter ts init_actions revision) w = Some r2 /\
    alike (fun (items : list view) (copies : list (list Z)) =>
             items = replicate (Z.to_nat ts) current_actions /\
             length copies = Z.to_nat ts) r1 r2.
Proof.
  intros Hfuel. unfold list_of, copies_of.
  rewrite !for_enumerate_run by done. eexists _, _.
  split; [done |]. split; [done |].
  apply (run_loop_lockstep
           (fun t (items : list view) (copies : list (list Z)) =>
              items = replicate t current_actions /\ length copies = t)
           (fun _ => True) keep_item copy_item revision (Z.to_nat ts));
    try done.
  intros t items copies w' _ _ [-> Hlen].
  destruct (keep_item_copy_item t (replicate t current_actions) copies w')
    as (items' & copies' & Hk & Hc & Hrel); [by rewrite Hlen |].
  exists items', copies'. split; [done |]. split; [done |].
  unfold copy_item, bind, get_self, ret in Hc. injection Hc as <-.
  rewrite Hrel, length_app, Hlen. cbn [length].
  by replace (t + 1) with (S t) by lia.
Qed.

(** C5, as the code has it.  [simulate] is its own seeding followed by the
    iterator drained with a copy taken at every yield, in every case,
    exceptions included; with explicit initial actions that first seeding
    changes nothing, so [simulate] and the copying drain of [simulate_iter]
    agree from the same world.  The iterator seeds at its first [next].  What
    it yields is each time the live view [current_actions] itself, at most
    [ts_length] times: a consumer that keeps the items holds [ts_length]
    references to one buffer. *)
Theorem simulate_iter_copied_at_yield fuel ts init_actions revision (w : world) :
  wf (self w) -> (0 <= ts)%Z -> Z.to_nat ts < fuel ->
  let g := simulate_iter ts init_actions revision in
  simulate ts init_actions revision w
  = match set_init_actions init_actions w with
    | (Ok _, w1) => copies_of fuel g w1
    | (Raise e, w1) => Some (Raise e, w1)
    end /\
  (forall v, init_actions = Some v ->
     simulate ts init_actions revision w = copies_of fuel g w) /\
  snd (next g w) = snd (set_init_actions init_actions w) /\
  exists r1 r2,
    list_of fuel g w = Some r1 /\ copies_of fuel g w = Some r2 /\
    alike (fun (items : list view) (copies : list (list Z)) =>
             items = replicate (Z.to_nat ts) current_actions /\
             length copies = Z.to_nat ts) r1 r2.
Proof.
  intros Hwf Hts Hfuel g.
  assert (Hsim : simulate ts init_actions revision w
                 = match set_init_actions init_actions w with
                   | (Ok _, w1) => copies_of fuel g w1
                   | (Raise e, w1) => Some (Raise e, w1)
                   end).
  { unfold simulate. apply simulate_bounded_copies; (done || lia). }
  split; [done |]. split; [| split].
  - intros v ->. rewrite Hsim. subst g. unfold copies_of.
    rewrite !for_enumerate_run by done.
    pose proof (set_init_actions_explicit_twice v w) as Htwice.
    unfold bind in Htwice. unfold run_loop.
    destruct (set_init_actions (Some v) w) as [[[] | e] w1]; [| done].
    cbn beta iota in Htwice.
    rewrite for_enumerate_run by done. unfold run_loop. by rewrite Htwice.
  - subst g. rewrite next_created.
    by destruct (set_init_actions init_actions w) as [[[] | e] w1].
  - by apply list_of_copies_of.
Qed.

(** C8. With explicit initial actions for the N agents, a recognized mode
    and at least one step, [simulate] records these initial actions as its
    first profile, in whatever state the engine and the random source are;
    so does a second call made in the world the first one leaves. *)
Theorem simulate_reseeds_explicit ts l revision (w : world) :
  wf (self w) -> length l = N (self w) -> (0 < ts)%Z ->
  recognized revision ->
  (revision = "sequential" -> 0 < N (self w)) ->
  exists rest1 w1 rest2 w2,
    simulate ts (Some (Sequence l)) revision w = Some (Ok (l :: rest1), w1) /\
    simulate ts (Some (Sequence l)) revision w1 = Some (Ok (l :: rest2), w2).
Proof.
  intros Hwf Hl Hts Hrec HN.
  assert (Hone : forall w', wf (self w') -> N (self w') = N (self w) ->
            exists rest w'',
              simulate ts (Some (Sequence l)) revision w'
              = Some (Ok (l :: rest), w'') /\
              wf (self w'') /\ N (self w'') = N (self w)).
  { intros w' Hwf' Hn'.
    destruct (simulate_run ts (Some (Sequence l)) revision w')
      as (Hok & Hplay & Hfr & Hsim); try done; try lia.
    { left. congruence. }
    { rewrite Hn'. done. }
    rewrite Hsim.
    set (w0 := snd ((do_ set_init_actions (Some (Sequence l)) ;;
                     set_init_actions (Some (Sequence l))) w')) in *.
    assert (Hw0 : current_actions (self w0) = l).
    { subst w0. rewrite set_init_actions_explicit_twice.
      rewrite set_init_actions_explicit, assign_current_actions_run.
      rewrite broadcast_to_exact; [done |].
      rewrite (wf_indices _ Hwf'). congruence. }
    destruct (Z.to_nat ts) as [| n] eqn:Hn; [lia |].
    exists (profiles revision w0 1 n), (Nat.iter (S n) (step revision) w0).
    split.
    - unfold profiles. cbn [seq fmap list_fmap Nat.iter nat_rect].
      rewrite Hw0. reflexivity.
    - pose proof (playable_iter revision w0 (S n) Hrec Hplay) as [Hwfn _].
      split; [done |].
      assert (Hfrn : forall t, N (self (Nat.iter t (step revision) w0))
                               = N (self w0) /\
                               wf (self (Nat.iter t (step revision) w0))).
      { induction t as [| t [IHn IHwf]]; [by destruct Hplay |].
        rewrite Nat.iter_succ.
        destruct (play_wf revision _ IHwf) as [? (_ & Hnn & _)].
        split; [| done]. unfold step at 1. by rewrite Hnn. }
      destruct (Hfrn (S n)) as [-> _].
      destruct Hfr as (_ & -> & _). done. }
  destruct (Hone w Hwf eq_refl) as (rest1 & w1 & Hs1 & Hwf1 & Hn1).
  destruct (Hone w1 Hwf1 Hn1) as (rest2 & w2 & Hs2 & _).
  by exists rest1, w1, rest2, w2.
Qed.

(** C9. Every call of [simulate] seeds twice: once itself, and once more at
    the first [next] of the iterator it then drains.  Without explicit
    actions the two seedings consume 2N cells of the random source; the first
    draw is overwritten before anything reads it, so [simulate] is the
    iterator drained in the world where N cells have been skipped, and the
    first recorded profile is the second draw.  With explicit actions the
    second seeding changes nothing. *)
Theorem simulate_seeds_twice fuel ts revision init_actions v (w : world) :
  wf (self w) -> (0 <= ts)%Z -> 0 < num_actions (self w) ->
  Z.to_nat ts < fuel ->
  let n := N (self w) in
  let k := num_actions (self w) in
  let first := draws k n (np_random w) in
  let second := draws k n (snd first) in
  let w1 := MkWorld (with_indices (self w) (fst first)) (snd first) in
  let w2 := MkWorld (with_indices (self w) (fst second)) (snd second) in
  simulate ts init_actions revision w
  = match set_init_actions init_actions w with
    | (Ok _, w') =>
        copies_of fuel (simulate_iter ts init_actions revision) w'
    | (Raise e, w') => Some (Raise e, w')
    end /\
  (forall w', snd (next (simulate_iter ts init_actions revision) w')
              = snd (set_init_actions init_actions w')) /\
  set_init_actions None w = (Ok tt, w1) /\
  snd (next (simulate_iter ts None revision) w1) = w2 /\
  pos (np_random w2) = pos (np_random w) + 2 * n /\
  simulate ts None revision w
  = copies_of fuel (simulate_iter ts None revision) (skip_draws n w) /\
  (recognized revision -> (revision = "sequential" -> 0 < n) -> (0 < ts)%Z ->
   exists rest w',
     simulate ts None revision w = Some (Ok (fst second :: rest), w')) /\
  (do_ set_init_actions (Some v) ;; set_init_actions (Some v)) w
  = set_init_actions (Some v) w.
Proof.
  intros Hwf Hts Hk Hfuel n k first second w1 w2.
  destruct (set_init_actions_random_ok w Hwf Hk) as [Hrun1 _].
  fold n k first in Hrun1. fold w1 in Hrun1.
  assert (Hwf1 : wf (self w1)).
  { apply wf_with_indices; [done |]. apply draws_length. }
  destruct (set_init_actions_random_ok w1 Hwf1 Hk) as [Hrun2 _].
  change (set_init_actions None w1 = (Ok tt, w2)) in Hrun2.
  split.
  { unfold simulate. apply simulate_bounded_copies; (done || lia). }
  split.
  { intros w'. rewrite next_created.
    by destruct (set_init_actions init_actions w') as [[[] | e] w'']. }
  split; [done |]. split.
  { rewrite next_created, Hrun2. unfold loop_head. by case_decide. }
  split.
  { unfold w2, second, first. cbn [np_random].
    rewrite !draws_state. cbn [pos]. lia. }
  assert (Hsim : simulate ts None revision w
                 = copies_of fuel (simulate_iter ts None revision) w1).
  { unfold simulate.
    rewrite (simulate_bounded_copies _ fuel) by (done || lia).
    by rewrite Hrun1. }
  assert (Hskip : set_init_actions None w1
                  = set_init_actions None (skip_draws n w)).
  { pose proof (set_init_actions_random_twice w Hwf Hk) as Htw.
    by rewrite Hrun1 in Htw. }
  split.
  { rewrite Hsim. unfold copies_of. rewrite !for_enumerate_run by done.
    unfold run_loop. by rewrite Hskip. }
  split; [| apply set_init_actions_explicit_twice].
  intros Hrec HN Hpos.
  destruct (simulate_run ts None revision w) as (_ & _ & _ & Hrun);
    try done.
  rewrite Hrun. rewrite bind_seed_twice by (by rewrite Hrun1).
  rewrite Hrun1. cbn [snd]. rewrite Hrun2. cbn [snd].
  destruct (Z.to_nat ts) as [| m] eqn:Hm; [lia |].
  eexists _, _. unfold profiles. cbn [seq fmap list_fmap Nat.iter nat_rect].
  reflexivity.
Qed.

End TrajectoryClaims.

(** * The three-agent cycle, run *)

Module Cycle3Facts.
Import Cycle3.

Lemma engine_wf : wf engine.
Proof. by apply (init_wf coordination cycle). Qed.

Lemma seeded_wf : wf (self seeded).
Proof. apply set_init_actions_wf, engine_wf. Qed.

Lemma first_best_response_coordination d :
  length d = 2 -> (0 <= first_best_response coordination d < 2)%Z.
Proof.
  destruct d as [| x [| y [| z d']]]; try done. intros _.
  unfold first_best_response, argmax. simpl.
  destruct (_ <? _)%Z; simpl; lia.
Qed.

Lemma engine_br_sound : br_sound engine.
Proof.
  intros p d Hp Hd.
  change (players engine) with [coordination; coordination; coordination] in Hp.
  assert (p = coordination) as ->.
  { rewrite !elem_of_cons in Hp.
    destruct Hp as [-> | [-> | [-> | Hp]]]; try done.
    by apply elem_of_nil in Hp. }
  by apply first_best_response_coordination.
Qed.

Lemma cycle_columns_valid : adjacency_columns_valid (self seeded).
Proof.
  intros [| [| [| [| i]]]]; unfold csr_row; simpl.
  1-3: apply List.Forall_cons; [simpl; lia | apply List.Forall_nil].
  - apply List.Forall_nil.
  - destruct i; apply List.Forall_nil.
Qed.

(** The scenario of the specification: one simultaneous step from
    [0; 1; 0] gives [0; 0; 1]. *)
Example scenario_step :
  current_actions (self (step "simultaneous" seeded)) = [0; 0; 1]%Z.
Proof. reflexivity. Qed.

Example scenario_trajectory :
  option_map fst (simulate 3 (Some (Sequence scenario)) "simultaneous" start)
  = Some (Ok [[0; 1; 0]; [0; 0; 1]; [1; 0; 0]]%Z).
Proof. reflexivity. Qed.

(** Without explicit actions the first profile is the second draw: the tape
    0, 1, 2, ... gives [0; 1; 0] to the seeding of [simulate] and [1; 0; 1]
    to the seeding of the iterator. *)
Example random_trajectory :
  option_map fst (simulate 1 None "simultaneous" start)
  = Some (Ok [[1; 0; 1]]%Z).
Proof. reflexivity. Qed.

End Cycle3Facts.

(** * Instances of the claims on the three-agent cycle *)

Lemma play_simultaneous_snapshot_witness :
  wf (self Cycle3.seeded) /\
  Cycle3.backwards ≡ₚ enumerate (players (self Cycle3.seeded)) /\
  length [7; 7; 7]%Z = N (self Cycle3.seeded) /\
  exists w',
    play "simultaneous" Cycle3.seeded = (Ok tt, w') /\
    play_simultaneous Cycle3.backwards [7; 7; 7]%Z Cycle3.seeded = (Ok tt, w') /\
    current_actions (self w') = [0; 0; 1]%Z /\
    exists d,
      dot_toarray (adj_matrix (self Cycle3.seeded))
        (current_actions_mixed (self Cycle3.seeded)) !! 2 = Some d /\
      d !! 0 = Some 0%Z /\ d !! 1 = Some 1%Z.
Proof.
  assert (H1 : wf (self Cycle3.seeded)) by apply Cycle3Facts.seeded_wf.
  assert (H2 : Cycle3.backwards ≡ₚ enumerate (players (self Cycle3.seeded)))
    by apply reverse_Permutation.
  assert (H3 : length [7; 7; 7]%Z = N (self Cycle3.seeded)) by reflexivity.
  destruct (play_simultaneous_snapshot Cycle3.seeded Cycle3.backwards
              [7; 7; 7]%Z H1 H2 H3) as (w' & Hplay & Hord & _ & _ & _ & Hrows).
  destruct (Hrows 2 ltac:(vm_compute; lia))
    as (p & d & _ & Hd & _ & _ & Htally & _).
  refine (conj H1 (conj H2 (conj H3 _))). exists w'.
  split; [exact Hplay |]. split; [exact Hord |]. split.
  - assert (Hw' : w' = snd (play "simultaneous" Cycle3.seeded))
      by (by rewrite Hplay).
    rewrite Hw'. reflexivity.
  - exists d. split; [exact Hd |].
    split; apply (Htally Cycle3Facts.cycle_columns_valid);
      vm_compute; lia.
Defined.

Lemma play_sequential_frame_witness :
  let w := set_cell 2 Cycle3.seeded in
  wf (self w) /\ 0 < N (self w) /\
  selected_agent w = Ok 2 /\
  length (filter (fun c => selected_agent (set_cell c w) = Ok 2) (seq 0 (3 * 2)))
  = 2 /\
  exists d w',
    dot_toarray (adj_matrix (self w)) (current_actions_mixed (self w)) !! 2
    = Some d /\
    d !! 0 = Some 0%Z /\ d !! 1 = Some 1%Z /\
    play "sequential" w = (Ok tt, w') /\
    current_actions (self w) = [0; 1; 0]%Z /\
    current_actions (self w') = [0; 1; 1]%Z.
Proof.
  intros w.
  assert (H1 : wf (self w)) by apply Cycle3Facts.seeded_wf.
  assert (H2 : 0 < N (self w)) by (vm_compute; lia).
  destruct (play_sequential_frame w H1 H2)
    as (_ & Hsel & _ & Hbal & p & row & d & w' & _ & _ & _ & Hd & _ & Htally
        & Hplay & _).
  refine (conj H1 (conj H2 (conj Hsel
            (conj (Hbal 2 2 ltac:(vm_compute; lia)) _)))).
  exists d, w'. split; [exact Hd |].
  split; [apply (Htally Cycle3Facts.cycle_columns_valid); vm_compute; lia |].
  split; [apply (Htally Cycle3Facts.cycle_columns_valid); vm_compute; lia |].
  split; [exact Hplay |]. split; [reflexivity |].
  assert (Hw' : w' = snd (play "sequential" w)) by (by rewrite Hplay).
  rewrite Hw'. reflexivity.
Defined.

Lemma dual_representation_invariant_witness :
  let w := step "sequential" (step "simultaneous" Cycle3.seeded) in
  reachable w /\ br_sound (self w) /\ consistent (self w).
Proof.
  intros w.
  assert (H1 : reachable w).
  { apply reach_play, reach_play, reach_set_init_actions.
    - apply (reach_init Cycle3.coordination Cycle3.cycle); [reflexivity |].
      vm_compute. lia.
    - intros v [= <-]. unfold rhs_in_range, Cycle3.scenario.
      repeat (apply List.Forall_cons; [unfold in_range; simpl; lia |]).
      apply List.Forall_nil. }
  assert (H2 : br_sound (self w)).
  { apply (br_sound_frame Cycle3.engine); [| apply Cycle3Facts.engine_br_sound].
    by repeat split. }
  destruct (dual_representation_invariant w H1 H2) as (Hc & _).
  split; [assumption | split; assumption].
Defined.


Lemma simulate_iter_copied_at_yield_witness :
  wf (self Cycle3.start) /\ (0 <= 2)%Z /\ Z.to_nat 2 < 3 /\
  simulate 2 (Some (Sequence Cycle3.scenario)) "simultaneous" Cycle3.start
  = copies_of 3
      (simulate_iter 2 (Some (Sequence Cycle3.scenario)) "simultaneous")
      Cycle3.start.
Proof.
  assert (H1 : wf (self Cycle3.start)) by apply Cycle3Facts.engine_wf.
  assert (H2 : (0 <= 2)%Z) by lia.
  assert (H3 : Z.to_nat 2 < 3) by (vm_compute; lia).
  destruct (simulate_iter_copied_at_yield 3 2
              (Some (Sequence Cycle3.scenario)) "simultaneous" Cycle3.start
              H1 H2 H3) as (_ & Hexplicit & _).
  refine (conj H1 (conj H2 (conj H3 _))).
  by apply (Hexplicit (Sequence Cycle3.scenario)).
Defined.

(** C5, as stated, fails.  The items of the iterator are not snapshots: a
    consumer that keeps them reads, after the iteration, the final profile in
    every one of them, not the sequence [simulate] returns.  And without
    explicit initial actions [simulate] and the iterator, started on the same
    random source, do not record the same profiles, even when each item is
    copied at its yield. *)
Lemma simulate_iter_items_alias :
  let init_actions := Some (Sequence Cycle3.scenario) in
  exists items w' trajectory w'',
    list_of 3 (simulate_iter 2 init_actions "simultaneous") Cycle3.start
    = Some (Ok items, w') /\
    simulate 2 init_actions "simultaneous" Cycle3.start
    = Some (Ok trajectory, w'') /\
    trajectory = [[0; 1; 0]; [0; 0; 1]]%Z /\
    (fun x : view => x (self w')) <$> items = [[1; 0; 0]; [1; 0; 0]]%Z /\
    (fun x : view => x (self w')) <$> items <> trajectory /\
    option_map fst (simulate 2 None "simultaneous" Cycle3.start)
    <> option_map fst
         (copies_of 3 (simulate_iter 2 None "simultaneous") Cycle3.start).
Proof.
  intros init_actions. eexists _, _, _, _.
  split; [vm_compute; reflexivity |].
  split; [vm_compute; reflexivity |].
  split; [reflexivity |]. split; [reflexivity |].
  split; [discriminate |]. vm_compute. discriminate.
Qed.

Lemma play_unrecognized_atomic_witness :
  "random" <> "simultaneous" /\ "random" <> "sequential" /\
  play "random" Cycle3.seeded = (Raise (ValueError EmptyString), Cycle3.seeded).
Proof.
  assert (H1 : "random" <> "simultaneous") by discriminate.
  assert (H2 : "random" <> "sequential") by discriminate.
  destruct (play_unrecognized_atomic "random" Cycle3.seeded H1 H2) as (Hp & _).
  exact (conj H1 (conj H2 Hp)).
Defined.

Lemma simulate_reseeds_explicit_witness :
  wf (self Cycle3.start) /\
  length Cycle3.scenario = N (self Cycle3.start) /\ (0 < 2)%Z /\
  recognized "sequential" /\
  ("sequential" = "sequential" -> 0 < N (self Cycle3.start)) /\
  exists rest1 w1 rest2 w2,
    simulate 2 (Some (Sequence Cycle3.scenario)) "sequential" Cycle3.start
    = Some (Ok (Cycle3.scenario :: rest1), w1) /\
    simulate 2 (Some (Sequence Cycle3.scenario)) "sequential" w1
    = Some (Ok (Cycle3.scenario :: rest2), w2).
Proof.
  assert (H1 : wf (self Cycle3.start)) by apply Cycle3Facts.engine_wf.
  assert (H2 : length Cycle3.scenario = N (self Cycle3.start)) by reflexivity.
  assert (H3 : (0 < 2)%Z) by lia.
  assert (H4 : recognized "sequential") by (right; reflexivity).
  assert (H5 : "sequential" = "sequential" -> 0 < N (self Cycle3.start))
    by (intros _; vm_compute; lia).
  pose proof (simulate_reseeds_explicit 2 Cycle3.scenario "sequential"
                Cycle3.start H1 H2 H3 H4 H5) as Hruns.
  exact (conj H1 (conj H2 (conj H3 (conj H4 (conj H5 Hruns))))).
Defined.

Lemma simulate_seeds_twice_witness :
  wf (self Cycle3.start) /\ (0 <= 2)%Z /\
  0 < num_actions (self Cycle3.start) /\ Z.to_nat 2 < 3 /\
  simulate 2 None "sequential" Cycle3.start
  = copies_of 3 (simulate_iter 2 None "sequential")
      (skip_draws 3 Cycle3.start) /\
  exists rest w',
    simulate 2 None "sequential" Cycle3.start
    = Some (Ok ([1; 0; 1]%Z :: rest), w').
Proof.
  assert (H1 : wf (self Cycle3.start)) by apply Cycle3Facts.engine_wf.
  assert (H2 : (0 <= 2)%Z) by lia.
  assert (H3 : 0 < num_actions (self Cycle3.start)) by (vm_compute; lia).
  assert (H4 : Z.to_nat 2 < 3) by (vm_compute; lia).
  destruct (simulate_seeds_twice 3 2 "sequential" None (Scalar 0) Cycle3.start
              H1 H2 H3 H4) as (_ & _ & _ & _ & _ & Hskip & Hfirst & _).
  refine (conj H1 (conj H2 (conj H3 (conj H4 (conj Hskip _))))).
  apply Hfirst; [by right | intros _; vm_compute; lia | lia].
Defined.

Lemma set_init_actions_broadcasts_witness :
  wf (self Cycle3.start) /\
  current_actions (self (snd (set_init_actions (Some (Scalar 1)) Cycle3.start)))
  = [1; 1; 1]%Z /\
  current_actions
    (self (snd (set_init_actions (Some (Sequence [1%Z])) Cycle3.start)))
  = [1; 1; 1]%Z.
Proof.
  assert (H1 : wf (self Cycle3.start)) by apply Cycle3Facts.engine_wf.
  destruct (set_init_actions_broadcasts 1 Cycle3.start H1) as (Hs & Hq & _).
  split; [assumption |]. rewrite Hs, Hq. split; reflexivity.
Defined.

(** * Further properties of the engine *)

Section LoopInvariants.
Context {W : Type} `{NumW : Numeric W} `{PlayerW : PlayerAPI W}.

Lemma with_indices_current_actions (li : LocalInteraction) :
  with_indices li (current_actions li) = li.
Proof. destruct li as [a n k p [d i ip s]]. reflexivity. Qed.

Lemma assign_row_world t x rows (w : world) :
  snd (assign_row t x rows w) = w.
Proof.
  unfold assign_row, bind, get_self, lift.
  destruct (getitem rows t); [| done].
  destruct (broadcast_to _ _); [| done]. by destruct (setitem _ _ _).
Qed.

(** What seeding, every revision and the loop body keep, the whole loop
    keeps, however it ends. *)
Lemma resume_invariant {A} (I : world -> Prop) revision
    (body : nat -> view -> A -> M world A) :
  (forall w, I w -> I (snd (play revision w))) ->
  (forall t x acc w, I w -> I (snd (body t x acc w))) ->
  forall rem t acc w, I w -> I (snd (resume rem revision body t acc w)).
Proof.
  intros Hplay Hbody. induction rem as [| rem IH]; intros t acc w HI;
    cbn [resume]; specialize (Hplay w HI);
    destruct (play revision w) as [[[] | e] w']; simpl in *; try done.
  specialize (Hbody (S t) current_actions acc w' Hplay).
  destruct (body (S t) current_actions acc w') as [[acc' | e] w''];
    simpl in *; [by apply IH | done].
Qed.

Lemma run_loop_invariant {A} (I : world -> Prop) ts init_actions revision
    (body : nat -> view -> A -> M world A) acc (w : world) :
  (forall w, I w -> I (snd (play revision w))) ->
  (forall t x acc w, I w -> I (snd (body t x acc w))) ->
  I (snd (set_init_actions init_actions w)) ->
  I (snd (run_loop ts init_actions revision body acc w)).
Proof.
  intros Hplay Hbody Hseed. unfold run_loop.
  destruct (set_init_actions init_actions w) as [[[] | e] w']; simpl in *;
    [| done].
  case_decide; [| done].
  pose proof (Hbody 0 current_actions acc w' Hseed) as H0.
  destruct (body 0 current_actions acc w') as [[acc' | e] w''];
    simpl in *; [by apply resume_invariant | done].
Qed.

Lemma simulate_unfold ts init_actions revision (w : world) :
  simulate ts init_actions revision w =
  match set_init_actions init_actions w with
  | (Raise e, w1) => Some (Raise e, w1)
  | (Ok _, w1) =>
      if decide (ts < 0)%Z
      then Some (Raise (ValueError "negative dimensions are not allowed"), w1)
      else Some (run_loop ts init_actions revision assign_row
                   (replicate (Z.to_nat ts) (np_empty (N (self w1)))) w1)
  end.
Proof.
  unfold simulate, simulate_bounded, np_empty2.
  destruct (set_init_actions init_actions w) as [[[] | e] w1]; [| done].
  case_decide; [done |]. apply for_enumerate_run. lia.
Qed.

(** X1. [simulate] always comes back, and whatever it returns or raises it
    leaves an engine a caller could have reached by seeding and revising:
    with the same graph, players and sizes, and, when the external capability
    answers with action indices, with its two representations consistent.
    The same holds for every [next] of the iterator. *)
Theorem simulate_keeps_reachable ts init_actions revision (w : world) :
  reachable w ->
  (forall v, init_actions = Some v -> rhs_in_range (self w) v) ->
  (exists o w',
     simulate ts init_actions revision w = Some (o, w') /\
     reachable w' /\ same_frame (self w) (self w') /\
     (br_sound (self w) -> consistent (self w'))) /\
  (forall pc,
     reachable
       (snd (next (MkGenerator ts init_actions revision pc) w))).
Proof.
  intros Hreach Hv.
  set (I := fun w' : world =>
              reachable w' /\ same_frame (self w) (self w')).
  assert (Hplay : forall w', I w' -> I (snd (play revision w'))).
  { intros w' [Hr Hf]. split; [by apply reach_play |].
    destruct (reachable_valid w' Hr) as (Hwf' & _).
    destruct (play_wf revision w' Hwf') as [_ Hf'].
    by eapply same_frame_trans. }
  assert (Hseed : forall w', I w' ->
            I (snd (set_init_actions init_actions w'))).
  { intros w' [Hr Hf]. split.
    - apply reach_set_init_actions; [done |]. intros v Hvv.
      specialize (Hv v Hvv). destruct Hf as (_ & _ & Hk & _).
      destruct v as [a | l]; unfold rhs_in_range, in_range in *;
        by rewrite Hk.
    - destruct (reachable_valid w' Hr) as (Hwf' & _).
      destruct (set_init_actions_wf init_actions w' Hwf') as [_ Hf'].
      by eapply same_frame_trans. }
  assert (HI : I w) by (split; [done | apply same_frame_refl]).
  split.
  - assert (Hend : exists o w',
              simulate ts init_actions revision w = Some (o, w') /\ I w').
    { rewrite simulate_unfold. pose proof (Hseed w HI) as HI1.
      destruct (set_init_actions init_actions w) as [[[] | e] w1];
        simpl in HI1; [| by eexists _, _].
      case_decide; [by eexists _, _ |].
      eexists _, _. split; [by rewrite <- surjective_pairing |].
      apply run_loop_invariant; auto.
      intros t x acc w' HI'. by rewrite assign_row_world. }
    destruct Hend as (o & w' & Hsim & Hr & Hf).
    exists o, w'. split; [done |]. split; [done |]. split; [done |].
    intros Hbr. destruct (reachable_valid w' Hr) as (Hwf' & _ & Hrange).
    apply wf_consistent; [done |]. apply Hrange.
    by eapply br_sound_frame.
  - intros [| t |]; unfold next; cbn [gen_at gen_init_actions gen_revision].
    + pose proof (Hseed w HI) as [Hr _]. unfold bind.
      by destruct (set_init_actions init_actions w) as [[[] | e] w1].
    + pose proof (Hplay w HI) as [Hr _]. unfold bind.
      by destruct (play revision w) as [[[] | e] w1].
    + done.
Qed.

(** X2. Explicit initial actions whose length is neither N nor one are
    refused: seeding raises [ValueError] and writes nothing, and so do
    [simulate] and the first [next] of the iterator. *)
Theorem set_init_actions_wrong_length l ts revision (w : world) :
  wf (self w) -> length l <> N (self w) -> length l <> 1 ->
  let refused : outcome unit * world :=
    (Raise (ValueError "could not broadcast input array"), w) in
  set_init_actions (Some (Sequence l)) w = refused /\
  simulate ts (Some (Sequence l)) revision w
  = Some (Raise (ValueError "could not broadcast input array"), w) /\
  next (simulate_iter ts (Some (Sequence l)) revision) w
  = (Raise (ValueError "could not broadcast input array"), w).
Proof.
  intros Hwf HN H1 refused.
  assert (Hseed : set_init_actions (Some (Sequence l)) w = refused).
  { rewrite set_init_actions_explicit, assign_current_actions_run.
    rewrite (wf_indices _ Hwf). cbn [broadcast_to].
    rewrite decide_False by done.
    by destruct l as [| a [| b l']]. }
  split; [done |]. split.
  - by rewrite simulate_unfold, Hseed.
  - by rewrite next_created, Hseed.
Qed.

End LoopInvariants.

Section EdgeCases.
Context {W : Type} `{NumW : Numeric W} `{PlayerW : PlayerAPI W}.

(** The loop of [simulate] when the first revision raises: the profile
    recorded before it is lost with the array. *)
Lemma run_loop_first_play_raises ts init_actions revision e (w : world) :
  wf (self w) -> (0 <= ts)%Z ->
  fst (set_init_actions init_actions w) = Ok tt ->
  (let w0 := snd (set_init_actions init_actions w) in
   play revision w0 = (Raise e, w0)) ->
  run_loop ts init_actions revision assign_row
    (replicate (Z.to_nat ts) (np_empty (N (self w)))) w
  = (if decide (ts = 0)%Z then Ok [] else Raise e,
     snd (set_init_actions init_actions w)).
Proof.
  intros Hwf Hts Hok Hraise. rewrite run_loop_assign_row by done.
  unfold run_loop.
  destruct (set_init_actions init_actions w) as [o w0]; simpl in *. subst o.
  case_decide as Hpos.
  - rewrite decide_False by lia.
    unfold copy_item, bind, get_self, ret.
    destruct (Z.to_nat ts - 1); cbn [resume]; by rewrite Hraise.
  - by rewrite decide_True by lia.
Qed.

(** X3. [simulate] checks the revision mode only when it first revises.  With
    an unrecognized mode and length zero it seeds and returns the empty
    trajectory; with a positive length it seeds, and then raises the
    [ValueError] of [play], leaving the engine as seeded and returning
    nothing of what it had recorded. *)
Theorem simulate_unrecognized ts init_actions revision (w : world) :
  wf (self w) -> (0 <= ts)%Z -> seedable (self w) init_actions ->
  revision <> "simultaneous" -> revision <> "sequential" ->
  let seed := do_ set_init_actions init_actions ;;
              set_init_actions init_actions in
  fst (seed w) = Ok tt /\
  simulate ts init_actions revision w
  = Some (if decide (ts = 0)%Z then Ok []
          else Raise (ValueError EmptyString), snd (seed w)).
Proof.
  intros Hwf Hts Hseed H1 H2 seed.
  pose proof (set_init_actions_ok _ _ Hwf Hseed) as Hok1.
  destruct (set_init_actions_wf init_actions w Hwf) as [Hwf1 Hfr1].
  assert (Hok2 : fst (set_init_actions init_actions
                        (snd (set_init_actions init_actions w))) = Ok tt).
  { apply set_init_actions_ok; [done |]. by eapply seedable_frame. }
  subst seed. rewrite bind_seed_twice by done. split; [done |].
  rewrite simulate_unfold.
  destruct (set_init_actions init_actions w) as [o w1]; simpl in *. subst o.
  rewrite decide_False by lia. f_equal.
  apply run_loop_first_play_raises; try done.
  cbn zeta. by apply play_unrecognized.
Qed.

(** X4. A negative length separates the eager from the lazy variant:
    [simulate] seeds once and then raises, for the result array cannot be
    allocated, while the iterator seeds and ends at once, yielding nothing. *)
Theorem simulate_negative_length fuel ts init_actions revision (w : world) :
  wf (self w) -> seedable (self w) init_actions -> (ts < 0)%Z ->
  let w1 := snd (set_init_actions init_actions w) in
  simulate ts init_actions revision w
  = Some (Raise (ValueError "negative dimensions are not allowed"), w1) /\
  copies_of (S fuel) (simulate_iter ts init_actions revision) w
  = Some (Ok [], w1).
Proof.
  intros Hwf Hseed Hts w1.
  pose proof (set_init_actions_ok _ _ Hwf Hseed) as Hok. subst w1. split.
  - rewrite simulate_unfold.
    destruct (set_init_actions init_actions w) as [o w1]; simpl in *. subst o.
    by rewrite decide_True.
  - unfold copies_of. rewrite for_enumerate_run by lia. unfold run_loop.
    destruct (set_init_actions init_actions w) as [o w1]; simpl in *. subst o.
    by rewrite decide_False by lia.
Qed.

(** X5. An engine without agents.  A simultaneous revision succeeds and
    changes nothing; a sequential one raises, for there is no agent to
    choose, and changes nothing either.  So [simulate] over at least one step
    returns empty profiles in simultaneous mode and raises in sequential
    mode. *)
Theorem empty_engine ts init_actions (w : world) :
  wf (self w) -> N (self w) = 0 -> (0 < ts)%Z ->
  seedable (self w) init_actions ->
  play "simultaneous" w = (Ok tt, w) /\
  play "sequential" w = (Raise (ValueError "a must be non-empty"), w) /\
  (exists w',
     simulate ts init_actions "simultaneous" w
     = Some (Ok (replicate (Z.to_nat ts) []), w')) /\
  (exists w',
     simulate ts init_actions "sequential" w
     = Some (Raise (ValueError "a must be non-empty"), w')).
Proof.
  intros Hwf HN Hts Hseed.
  split.
  { rewrite play_simultaneous_eq, play_simultaneous_run;
      [| done | done | apply length_replicate].
    pose proof (simultaneous_responses_length _ Hwf) as Hlen.
    pose proof (wf_indices _ Hwf) as Hidx. rewrite HN in Hlen, Hidx.
    apply nil_length_inv in Hlen. rewrite Hlen.
    apply nil_length_inv in Hidx. rewrite <- Hidx.
    by rewrite with_indices_current_actions, world_eta. }
  split; [by apply play_sequential_empty |]. split.
  - destruct (simulate_run ts init_actions "simultaneous" w)
      as (_ & Hplay & Hfr & Hsim); try done; try lia.
    { by left. }
    eexists. rewrite Hsim. f_equal. f_equal. f_equal.
    apply list_eq_same_length with (Z.to_nat ts).
    + apply length_replicate.
    + apply profiles_length.
    + intros t p q Ht Hp Hq. rewrite profiles_lookup in Hp by done.
      injection Hp as <-. apply lookup_replicate in Hq as [-> _].
      apply nil_length_inv.
      pose proof (playable_iter "simultaneous" _ t (or_introl eq_refl) Hplay)
        as [Hwft _].
      rewrite (wf_indices _ Hwft).
      assert (Hn : forall k, N (self (Nat.iter k (step "simultaneous")
                     (snd ((do_ set_init_actions init_actions ;;
                            set_init_actions init_actions) w)))) = 0).
      { induction k as [| k IH].
        - simpl. destruct Hfr as (_ & -> & _). done.
        - rewrite Nat.iter_succ. unfold step at 1.
          pose proof (playable_iter "simultaneous" _ k (or_introl eq_refl)
                        Hplay) as [Hwfk _].
          destruct (play_wf "simultaneous" _ Hwfk) as [_ (_ & -> & _)].
          done. }
      apply Hn.
  - pose proof (set_init_actions_ok _ _ Hwf Hseed) as Hok1.
    destruct (set_init_actions_wf init_actions w Hwf) as [Hwf1 Hfr1].
    rewrite simulate_unfold.
    destruct (set_init_actions init_actions w) as [o w1]; simpl in *. subst o.
    rewrite decide_False by lia. eexists.
    rewrite run_loop_first_play_raises with (e := ValueError "a must be non-empty").
    + by rewrite decide_False by lia.
    + done.
    + lia.
    + apply set_init_actions_ok; [done |]. by eapply seedable_frame.
    + cbn zeta. apply play_sequential_empty.
      destruct (set_init_actions_wf init_actions w1 Hwf1) as [_ (_ & -> & _)].
      destruct Hfr1 as (_ & -> & _). done.
Qed.

End EdgeCases.

Section Dynamics.
Context {W : Type} `{NumW : Numeric W} `{PlayerW : PlayerAPI W}.

(** The sequential revision of agent [i] writes what the simultaneous one
    would write for [i]. *)
Lemma sequential_response_simultaneous (li : LocalInteraction) i :
  wf li -> i < N li ->
  exists x, simultaneous_responses li !! i = Some x /\
            sequential_response li i = <[i := x]> (current_actions li).
Proof.
  intros Hwf Hi.
  destruct (lookup_lt_is_Some_2 (players li) i) as [p Hp];
    [by rewrite (wf_players _ Hwf) |].
  pose proof (dot_toarray_lookup (adj_matrix li) (current_actions_mixed li) i)
    as Hd. rewrite (wf_adj _ Hwf) in Hd. specialize (Hd Hi).
  eexists. unfold simultaneous_responses, sequential_response.
  rewrite lookup_zip_with, Hp, Hd. done.
Qed.

Lemma step_simultaneous (w : world) :
  wf (self w) ->
  step "simultaneous" w = MkWorld (best_response_map (self w)) (np_random w).
Proof.
  intros Hwf. unfold step.
  rewrite play_simultaneous_eq, play_simultaneous_run; try done.
  apply length_replicate.
Qed.

Lemma step_sequential (w : world) :
  wf (self w) -> 0 < N (self w) ->
  step "sequential" w
  = MkWorld (with_indices (self w)
               (sequential_response (self w)
                  (fst (draw (N (self w)) (np_random w)))))
            (snd (draw (N (self w)) (np_random w))).
Proof. intros Hwf HN. unfold step. by rewrite play_sequential_run. Qed.

Lemma playable_iter_frame revision (w : world) t :
  recognized revision -> playable revision w ->
  same_frame (self w) (self (Nat.iter t (step revision) w)).
Proof.
  intros Hrec Hp. induction t as [| t IH]; [apply same_frame_refl |].
  rewrite Nat.iter_succ.
  pose proof (playable_iter revision w t Hrec Hp) as [Hwft _].
  destruct (play_wf revision _ Hwft) as [_ Hf].
  by eapply same_frame_trans.
Qed.

(** X11. The two modes compute the same best response for an agent: the
    entry a sequential revision writes for the agent it draws is the entry a
    simultaneous revision of the same state writes for that agent. *)
Theorem sequential_matches_simultaneous (w : world) :
  wf (self w) -> 0 < N (self w) ->
  let i := fst (draw (N (self w)) (np_random w)) in
  exists x,
    current_actions (self (step "simultaneous" w)) !! i = Some x /\
    current_actions (self (step "sequential" w))
    = <[i := x]> (current_actions (self w)).
Proof.
  intros Hwf HN i.
  assert (Hi : i < N (self w)).
  { subst i. simpl. apply Nat.mod_upper_bound. lia. }
  destruct (sequential_response_simultaneous _ i Hwf Hi) as (x & Hx & Hseq).
  exists x. rewrite step_simultaneous, step_sequential by done.
  cbn [self]. unfold best_response_map.
  rewrite !current_actions_with_indices. by split.
Qed.

Lemma iter_simultaneous (li : LocalInteraction) r t :
  wf li ->
  Nat.iter t (step "simultaneous") (MkWorld li r)
  = MkWorld (Nat.iter t best_response_map li) r /\
  wf (Nat.iter t best_response_map li).
Proof.
  intros Hwf. induction t as [| t [IH IHwf]]; [done |].
  rewrite !Nat.iter_succ, IH, step_simultaneous by done. split; [done |].
  apply wf_with_indices; [done |]. by apply simultaneous_responses_length.
Qed.

Lemma simulate_simultaneous_run ts l (w : world) :
  wf (self w) -> (0 <= ts)%Z -> length l = N (self w) ->
  let li0 := with_indices (self w) l in
  simulate ts (Some (Sequence l)) "simultaneous" w
  = Some (Ok ((fun t => current_actions (Nat.iter t best_response_map li0))
                <$> seq 0 (Z.to_nat ts)),
          MkWorld (Nat.iter (Z.to_nat ts) best_response_map li0)
            (np_random w)).
Proof.
  intros Hwf Hts Hl li0.
  destruct (simulate_run ts (Some (Sequence l)) "simultaneous" w)
    as (_ & _ & _ & Hsim); try done.
  { by left. }
  { by left. }
  assert (Hw0 : snd ((do_ set_init_actions (Some (Sequence l)) ;;
                      set_init_actions (Some (Sequence l))) w)
                = MkWorld li0 (np_random w)).
  { rewrite set_init_actions_explicit_twice.
    rewrite set_init_actions_explicit, assign_current_actions_run.
    rewrite broadcast_to_exact; [done |]. by rewrite (wf_indices _ Hwf). }
  rewrite Hsim, Hw0.
  assert (Hwf0 : wf li0) by (by apply wf_with_indices).
  f_equal. f_equal.
  - f_equal. unfold profiles. apply list_fmap_ext. intros _ t _.
    by destruct (iter_simultaneous li0 (np_random w) t Hwf0) as [-> _].
  - by destruct (iter_simultaneous li0 (np_random w) (Z.to_nat ts) Hwf0)
      as [-> _].
Qed.

(** X12. A simultaneous simulation can be resumed.  Running [ts1] steps and
    then [ts2] more, seeded with the profile the engine was left in, records
    the same profiles and ends in the same world as one run of [ts1 + ts2]
    steps. *)
Theorem simulate_simultaneous_resume ts1 ts2 l (w : world) :
  wf (self w) -> (0 <= ts1)%Z -> (0 <= ts2)%Z -> length l = N (self w) ->
  exists tr1 w1 tr2 w2,
    simulate ts1 (Some (Sequence l)) "simultaneous" w = Some (Ok tr1, w1) /\
    simulate ts2 (Some (Sequence (current_actions (self w1)))) "simultaneous"
      w1 = Some (Ok tr2, w2) /\
    simulate (ts1 + ts2) (Some (Sequence l)) "simultaneous" w
    = Some (Ok (tr1 ++ tr2), w2).
Proof.
  intros Hwf Hts1 Hts2 Hl.
  set (li0 := with_indices (self w) l).
  set (T1 := Z.to_nat ts1). set (T2 := Z.to_nat ts2).
  set (li1 := Nat.iter T1 best_response_map li0).
  assert (Hwf0 : wf li0) by (by apply wf_with_indices).
  assert (Hwf1 : wf li1)
    by (by destruct (iter_simultaneous li0 (np_random w) T1 Hwf0)).
  pose proof (simulate_simultaneous_run ts1 l w Hwf Hts1 Hl) as Hrun1.
  pose proof (simulate_simultaneous_run ts2 (current_actions li1)
                (MkWorld li1 (np_random w)) Hwf1 Hts2 (wf_indices _ Hwf1))
    as Hrun2.
  pose proof (simulate_simultaneous_run (ts1 + ts2) l w Hwf
                ltac:(lia) Hl) as Hrun.
  cbn zeta in Hrun1, Hrun2, Hrun. cbn [self np_random] in Hrun2.
  rewrite with_indices_current_actions in Hrun2.
  fold li0 T1 li1 in Hrun1. fold li0 in Hrun. fold T2 in Hrun2.
  eexists _, _, _, _. split; [exact Hrun1 |]. cbn [self].
  split; [exact Hrun2 |]. rewrite Hrun.
  replace (Z.to_nat (ts1 + ts2)) with (T2 + T1) by (subst T1 T2; lia).
  f_equal. f_equal.
  - f_equal. rewrite (Nat.add_comm T2 T1), seq_app, fmap_app. f_equal.
    replace (seq (0 + T1) T2) with (Nat.add T1 <$> seq 0 T2)
      by (rewrite fmap_add_seq; f_equal; lia).
    rewrite <- list_fmap_compose. apply list_fmap_ext. intros _ t _. simpl.
    subst li1. by rewrite (Nat.add_comm T1 t), Nat.iter_add.
  - subst li1. by rewrite Nat.iter_add.
Qed.

(** X6. With explicit initial actions the simultaneous trajectory is the
    orbit of the seeded engine under the best-response map: the random
    source plays no part in it and is handed back as it was. *)
Theorem simulate_simultaneous_orbit ts v l (w : world) :
  wf (self w) -> (0 <= ts)%Z -> broadcast_to (N (self w)) v = Ok l ->
  let li0 := with_indices (self w) l in
  simulate ts (Some v) "simultaneous" w
  = Some (Ok ((fun t => current_actions (Nat.iter t best_response_map li0))
                <$> seq 0 (Z.to_nat ts)),
          MkWorld (Nat.iter (Z.to_nat ts) best_response_map li0)
            (np_random w)).
Proof.
  intros Hwf Hts Hl li0.
  assert (Hseed : seedable (self w) (Some v)).
  { destruct v as [a | s]; [done |]. simpl in *.
    case_decide; [by left |]. right. by destruct s as [| a [| b s']]. }
  destruct (simulate_run ts (Some v) "simultaneous" w)
    as (_ & _ & _ & Hsim); try done.
  { by left. }
  assert (Hw0 : snd ((do_ set_init_actions (Some v) ;;
                      set_init_actions (Some v)) w)
                = MkWorld li0 (np_random w)).
  { rewrite set_init_actions_explicit_twice.
    rewrite set_init_actions_explicit, assign_current_actions_run.
    by rewrite (wf_indices _ Hwf), Hl. }
  rewrite Hsim, Hw0.
  assert (Hwf0 : wf li0).
  { apply wf_with_indices; [done |]. by eapply broadcast_to_length. }
  f_equal. f_equal.
  - f_equal. unfold profiles. apply list_fmap_ext. intros _ t _.
    by destruct (iter_simultaneous li0 (np_random w) t Hwf0) as [-> _].
  - by destruct (iter_simultaneous li0 (np_random w) (Z.to_nat ts) Hwf0)
      as [-> _].
Qed.

(** A profile in which every agent already plays its best response stays
    as it is under a revision in either mode. *)
Lemma step_fixed_point revision (w : world) :
  wf (self w) -> recognized revision ->
  (revision = "sequential" -> 0 < N (self w)) ->
  simultaneous_responses (self w) = current_actions (self w) ->
  self (step revision w) = self w.
Proof.
  intros Hwf [-> | ->] HN Hfix.
  - rewrite step_simultaneous by done. cbn [self]. unfold best_response_map.
    by rewrite Hfix, with_indices_current_actions.
  - specialize (HN eq_refl). rewrite step_sequential by done. cbn [self].
    set (i := fst (draw (N (self w)) (np_random w))).
    assert (Hi : i < N (self w)).
    { subst i. simpl. apply Nat.mod_upper_bound. lia. }
    destruct (sequential_response_simultaneous _ i Hwf Hi) as (x & Hx & ->).
    rewrite Hfix in Hx. rewrite list_insert_id by done.
    apply with_indices_current_actions.
Qed.

(** X9. A profile in which every agent already plays its best response is
    absorbing in both modes: seeded with it, [simulate] returns that profile
    at every step and leaves the engine holding it. *)
Theorem simulate_fixed_point ts l revision (w : world) :
  wf (self w) -> (0 <= ts)%Z -> length l = N (self w) ->
  recognized revision ->
  (revision = "sequential" -> 0 < N (self w)) ->
  simultaneous_responses (with_indices (self w) l) = l ->
  exists w',
    simulate ts (Some (Sequence l)) revision w
    = Some (Ok (replicate (Z.to_nat ts) l), w') /\
    self w' = with_indices (self w) l.
Proof.
  intros Hwf Hts Hl Hrec HN Hfix.
  destruct (simulate_run ts (Some (Sequence l)) revision w)
    as (_ & Hplay & Hfr & Hsim); try done.
  { by left. }
  set (w0 := snd ((do_ set_init_actions (Some (Sequence l)) ;;
                   set_init_actions (Some (Sequence l))) w)) in *.
  assert (Hw0 : self w0 = with_indices (self w) l).
  { subst w0. rewrite set_init_actions_explicit_twice.
    rewrite set_init_actions_explicit, assign_current_actions_run.
    rewrite broadcast_to_exact; [done |].
    by rewrite (wf_indices _ Hwf). }
  assert (Hiter : forall t, self (Nat.iter t (step revision) w0)
                            = with_indices (self w) l).
  { induction t as [| t IH]; [done |].
    pose proof (playable_iter revision w0 t Hrec Hplay) as [Hwft HNt].
    rewrite Nat.iter_succ, step_fixed_point; try done.
    by rewrite IH, Hfix. }
  eexists. split; [| apply (Hiter (Z.to_nat ts))].
  rewrite Hsim. f_equal. f_equal. f_equal.
  apply list_eq_same_length with (Z.to_nat ts).
  - apply length_replicate.
  - apply profiles_length.
  - intros t p q Ht Hp Hq. rewrite profiles_lookup in Hp by done.
    injection Hp as <-. apply lookup_replicate in Hq as [-> _].
    by rewrite Hiter.
Qed.

End Dynamics.

Section Accounting.
Context {W : Type} `{NumW : Numeric W} `{PlayerW : PlayerAPI W}.

Lemma set_init_actions_random_state init_actions (w : world) :
  wf (self w) -> seedable (self w) init_actions ->
  let r' := np_random (snd (set_init_actions init_actions w)) in
  tape r' = tape (np_random w) /\
  pos r' = pos (np_random w)
           + match init_actions with None => N (self w) | Some _ => 0 end.
Proof.
  intros Hwf Hseed. destruct init_actions as [v |]; cbn zeta.
  - rewrite set_init_actions_explicit, assign_current_actions_run.
    destruct (broadcast_to _ v); simpl; split; (done || lia).
  - destruct (set_init_actions_random_ok w Hwf Hseed) as [-> _].
    cbn [snd np_random]. rewrite draws_state. by split.
Qed.

Lemma step_random_state revision (w : world) :
  recognized revision -> playable revision w ->
  let r' := np_random (step revision w) in
  tape r' = tape (np_random w) /\
  pos r' = pos (np_random w)
           + (if String.eqb revision "sequential" then 1 else 0).
Proof.
  intros [-> | ->] [Hwf HN]; cbn zeta.
  - rewrite step_simultaneous by done. simpl. split; (done || lia).
  - rewrite step_sequential by auto. simpl. split; (done || lia).
Qed.

(** X7. The randomness a successful [simulate] uses: 2N cells for the two
    seedings when no initial actions are given, none when they are, and one
    cell for each of the [ts_length] revisions in sequential mode, none in
    simultaneous mode.  The cells are read in order; nothing else of the
    random source changes. *)
Theorem simulate_draws ts init_actions revision (w : world) :
  wf (self w) -> (0 <= ts)%Z -> seedable (self w) init_actions ->
  recognized revision ->
  (revision = "sequential" -> 0 < N (self w)) ->
  exists trajectory w',
    simulate ts init_actions revision w = Some (Ok trajectory, w') /\
    tape (np_random w') = tape (np_random w) /\
    pos (np_random w')
    = pos (np_random w) + draws_needed (self w) ts init_actions revision.
Proof.
  intros Hwf Hts Hseed Hrec HN.
  destruct (simulate_run ts init_actions revision w)
    as (Hok & Hplay & Hfr & Hsim); try done.
  eexists _, _. split; [exact Hsim |].
  set (w0 := snd ((do_ set_init_actions init_actions ;;
                   set_init_actions init_actions) w)) in *.
  assert (Hw0 : tape (np_random w0) = tape (np_random w) /\
                pos (np_random w0)
                = pos (np_random w)
                  + match init_actions with
                    | None => 2 * N (self w)
                    | Some _ => 0
                    end).
  { pose proof (set_init_actions_ok _ _ Hwf Hseed) as Hok1.
    destruct (set_init_actions_wf init_actions w Hwf) as [Hwf1 Hfr1].
    destruct (set_init_actions_random_state init_actions w Hwf Hseed)
      as [Ht1 Hp1].
    destruct (set_init_actions_random_state init_actions
                (snd (set_init_actions init_actions w)) Hwf1)
      as [Ht2 Hp2]; [by eapply seedable_frame |].
    subst w0. rewrite bind_seed_twice by done.
    rewrite Ht2, Ht1, Hp2, Hp1. split; [done |].
    destruct Hfr1 as (_ & -> & _). destruct init_actions; lia. }
  assert (Hiter : forall t,
            tape (np_random (Nat.iter t (step revision) w0))
            = tape (np_random w0) /\
            pos (np_random (Nat.iter t (step revision) w0))
            = pos (np_random w0)
              + (if String.eqb revision "sequential" then t else 0)).
  { induction t as [| t [IHt IHp]].
    - simpl. split; [done |]. destruct (String.eqb _ _); lia.
    - rewrite Nat.iter_succ.
      destruct (step_random_state revision
                  (Nat.iter t (step revision) w0) Hrec)
        as [Ht Hp]; [by apply playable_iter |].
      rewrite Ht, Hp, IHt, IHp. split; [done |].
      destruct (String.eqb _ _); lia. }
  destruct (Hiter (Z.to_nat ts)) as [Ht Hp]. destruct Hw0 as [Ht0 Hp0].
  rewrite Ht, Hp, Ht0, Hp0. split; [done |].
  unfold draws_needed. lia.
Qed.

Lemma seeded_random_state init_actions (w : world) :
  wf (self w) -> seedable (self w) init_actions ->
  let w0 := snd ((do_ set_init_actions init_actions ;;
                  set_init_actions init_actions) w) in
  tape (np_random w0) = tape (np_random w) /\
  pos (np_random w0)
  = pos (np_random w)
    + match init_actions with None => 2 * N (self w) | Some _ => 0 end.
Proof.
  intros Hwf Hseed.
  pose proof (set_init_actions_ok _ _ Hwf Hseed) as Hok1.
  destruct (set_init_actions_wf init_actions w Hwf) as [Hwf1 Hfr1].
  destruct (set_init_actions_random_state init_actions w Hwf Hseed)
    as [Ht1 Hp1].
  destruct (set_init_actions_random_state init_actions
              (snd (set_init_actions init_actions w)) Hwf1)
    as [Ht2 Hp2]; [by eapply seedable_frame |].
  cbn zeta. rewrite bind_seed_twice by done.
  rewrite Ht2, Ht1, Hp2, Hp1. split; [done |].
  destruct Hfr1 as (_ & -> & _). destruct init_actions; lia.
Qed.

Lemma iter_sequential_random_state (w0 : world) t :
  playable "sequential" w0 ->
  tape (np_random (Nat.iter t (step "sequential") w0)) = tape (np_random w0) /\
  pos (np_random (Nat.iter t (step "sequential") w0))
  = pos (np_random w0) + t.
Proof.
  intros Hp. induction t as [| t [IHt IHp]]; [simpl; split; (done || lia) |].
  rewrite Nat.iter_succ.
  destruct (step_random_state "sequential"
              (Nat.iter t (step "sequential") w0) (or_intror eq_refl))
    as [Ht Hpos]; [by apply playable_iter; [right |] |].
  rewrite Ht, Hpos, IHt, IHp. simpl. split; (done || lia).
Qed.

(** X8. In a sequential trajectory two consecutive profiles differ in at
    most one entry, that of the agent the random source names at that step:
    after the cells the seeding has read, the cell of step [t], reduced
    modulo N. *)
Theorem simulate_sequential_local ts init_actions (w : world) :
  wf (self w) -> (0 <= ts)%Z -> seedable (self w) init_actions ->
  0 < N (self w) ->
  let r := np_random w in
  let seeding := match init_actions with
                 | None => 2 * N (self w)
                 | Some _ => 0
                 end in
  exists trajectory w',
    simulate ts init_actions "sequential" w = Some (Ok trajectory, w') /\
    forall t p q,
      trajectory !! t = Some p -> trajectory !! S t = Some q ->
      exists x,
        q = <[tape r (pos r + seeding + t) `mod` N (self w) := x]> p.
Proof.
  intros Hwf Hts Hseed HN r seeding.
  destruct (simulate_run ts init_actions "sequential" w)
    as (_ & Hplay & Hfr & Hsim); try done.
  { by right. }
  eexists _, _. split; [exact Hsim |]. intros t p q Hp Hq.
  pose proof (lookup_lt_Some _ _ _ Hq) as Ht. rewrite profiles_length in Ht.
  rewrite profiles_lookup in Hp by lia. rewrite profiles_lookup in Hq by lia.
  injection Hp as <-. injection Hq as <-.
  destruct (seeded_random_state init_actions w Hwf Hseed) as [Htape0 Hpos0].
  set (w0 := snd ((do_ set_init_actions init_actions ;;
                   set_init_actions init_actions) w)) in *.
  pose proof (playable_iter "sequential" w0 t (or_intror eq_refl) Hplay)
    as [Hwft HNt]. specialize (HNt eq_refl).
  pose proof (playable_iter_frame "sequential" w0 t (or_intror eq_refl) Hplay)
    as (_ & Hn & _).
  destruct (iter_sequential_random_state w0 t Hplay) as [Htape Hpos].
  rewrite step_sequential by done. cbn [self].
  rewrite current_actions_with_indices.
  set (wt := Nat.iter t (step "sequential") w0) in *.
  assert (Hi : fst (draw (N (self wt)) (np_random wt)) < N (self wt)).
  { simpl. apply Nat.mod_upper_bound. lia. }
  destruct (sequential_response_simultaneous _ _ Hwft Hi) as (x & _ & ->).
  exists x. f_equal. cbn [draw fst].
  rewrite Htape, Hpos, Htape0, Hpos0, Hn.
  destruct Hfr as (_ & -> & _). done.
Qed.

(** X10. What the matrix product computes.  On an engine whose adjacency
    matrix stores agents as columns, entry [k] of agent [i]'s opponent
    distribution is the tally of the stored weights of [i]'s neighbours that
    currently play [k]. *)
Theorem opponent_distribution_tally (li : LocalInteraction) i k :
  wf li -> adjacency_columns_valid li ->
  i < N li -> k < num_actions li ->
  exists row,
    dot_toarray (adj_matrix li) (current_actions_mixed li) !! i = Some row /\
    length row = num_actions li /\
    row !! k = Some (neighbour_tally li i k).
Proof.
  intros Hwf Hcols Hi Hk.
  eexists. split.
  { apply dot_toarray_lookup. by rewrite (wf_adj _ Hwf). }
  rewrite (wf_shape _ Hwf). cbn [snd]. split; [apply dense_row_length |].
  rewrite dense_row_lookup by done. f_equal.
  unfold col_sum, dot_row, neighbour_tally.
  by apply col_sum_dot_row.
Qed.

End Accounting.

(** * Instances of the further properties *)

Module MoreFacts.
Import Cycle3.

Lemma start_reachable : reachable start.
Proof.
  apply (reach_init coordination cycle); [reflexivity |]. vm_compute. lia.
Qed.

Lemma scenario_in_range :
  forall v, Some (Sequence scenario) = Some v -> rhs_in_range (self start) v.
Proof.
  intros v [= <-]. unfold rhs_in_range, scenario.
  repeat (apply List.Forall_cons; [unfold in_range; simpl; lia |]).
  apply List.Forall_nil.
Qed.

Lemma empty_wf : wf (self Empty.start).
Proof. by apply (init_wf coordination Empty.no_edges). Qed.

End MoreFacts.

Lemma simulate_keeps_reachable_witness :
  reachable Cycle3.start /\
  (forall v, Some (Sequence Cycle3.scenario) = Some v ->
             rhs_in_range (self Cycle3.start) v) /\
  exists o w',
    simulate 2 (Some (Sequence Cycle3.scenario)) "bogus" Cycle3.start
    = Some (o, w') /\ reachable w'.
Proof.
  pose proof MoreFacts.start_reachable as H1.
  pose proof MoreFacts.scenario_in_range as H2.
  destruct (simulate_keeps_reachable 2 (Some (Sequence Cycle3.scenario))
              "bogus" Cycle3.start H1 H2) as [(o & w' & Hs & Hr & _) _].
  refine (conj H1 (conj H2 _)). exists o, w'. by split.
Defined.

Lemma set_init_actions_wrong_length_witness :
  wf (self Cycle3.start) /\
  length [0; 1]%Z <> N (self Cycle3.start) /\ length [0; 1]%Z <> 1 /\
  simulate 2 (Some (Sequence [0; 1]%Z)) "simultaneous" Cycle3.start
  = Some (Raise (ValueError "could not broadcast input array"), Cycle3.start).
Proof.
  assert (H1 : wf (self Cycle3.start)) by apply Cycle3Facts.engine_wf.
  assert (H2 : length [0; 1]%Z <> N (self Cycle3.start))
    by (vm_compute; lia).
  assert (H3 : length [0; 1]%Z <> 1) by (vm_compute; lia).
  destruct (set_init_actions_wrong_length [0; 1]%Z 2 "simultaneous"
              Cycle3.start H1 H2 H3) as (_ & Hs & _).
  exact (conj H1 (conj H2 (conj H3 Hs))).
Defined.

Lemma simulate_unrecognized_witness :
  wf (self Cycle3.start) /\ (0 <= 2)%Z /\
  seedable (self Cycle3.start) (Some (Sequence Cycle3.scenario)) /\
  "bogus" <> "simultaneous" /\ "bogus" <> "sequential" /\
  simulate 2 (Some (Sequence Cycle3.scenario)) "bogus" Cycle3.start
  = Some (Raise (ValueError EmptyString), Cycle3.seeded).
Proof.
  assert (H1 : wf (self Cycle3.start)) by apply Cycle3Facts.engine_wf.
  assert (H2 : (0 <= 2)%Z) by lia.
  assert (H3 : seedable (self Cycle3.start) (Some (Sequence Cycle3.scenario)))
    by (left; reflexivity).
  assert (H4 : "bogus" <> "simultaneous") by discriminate.
  assert (H5 : "bogus" <> "sequential") by discriminate.
  destruct (simulate_unrecognized 2 (Some (Sequence Cycle3.scenario)) "bogus"
              Cycle3.start H1 H2 H3 H4 H5) as [_ Hs].
  exact (conj H1 (conj H2 (conj H3 (conj H4 (conj H5 Hs))))).
Defined.

Lemma simulate_negative_length_witness :
  wf (self Cycle3.start) /\
  seedable (self Cycle3.start) (Some (Sequence Cycle3.scenario)) /\
  (-1 < 0)%Z /\
  simulate (-1) (Some (Sequence Cycle3.scenario)) "simultaneous" Cycle3.start
  = Some (Raise (ValueError "negative dimensions are not allowed"),
          Cycle3.seeded) /\
  copies_of 1 (simulate_iter (-1) (Some (Sequence Cycle3.scenario))
                 "simultaneous") Cycle3.start
  = Some (Ok [], Cycle3.seeded).
Proof.
  assert (H1 : wf (self Cycle3.start)) by apply Cycle3Facts.engine_wf.
  assert (H2 : seedable (self Cycle3.start) (Some (Sequence Cycle3.scenario)))
    by (left; reflexivity).
  assert (H3 : (-1 < 0)%Z) by lia.
  pose proof (simulate_negative_length 0 (-1)
                (Some (Sequence Cycle3.scenario)) "simultaneous"
                Cycle3.start H1 H2 H3) as Hs.
  exact (conj H1 (conj H2 (conj H3 Hs))).
Defined.

Lemma empty_engine_witness :
  wf (self Empty.start) /\ N (self Empty.start) = 0 /\ (0 < 2)%Z /\
  seedable (self Empty.start) None /\
  play "sequential" Empty.start
  = (Raise (ValueError "a must be non-empty"), Empty.start) /\
  exists w',
    simulate 2 None "sequential" Empty.start
    = Some (Raise (ValueError "a must be non-empty"), w').
Proof.
  assert (H1 : wf (self Empty.start)) by apply MoreFacts.empty_wf.
  assert (H2 : N (self Empty.start) = 0) by reflexivity.
  assert (H3 : (0 < 2)%Z) by lia.
  assert (H4 : seedable (self Empty.start) None) by (vm_compute; lia).
  destruct (empty_engine 2 None Empty.start H1 H2 H3 H4)
    as (_ & Hseq & _ & Hsim).
  exact (conj H1 (conj H2 (conj H3 (conj H4 (conj Hseq Hsim))))).
Defined.

Lemma simulate_simultaneous_orbit_witness :
  wf (self Cycle3.start) /\ (0 <= 2)%Z /\
  broadcast_to (N (self Cycle3.start)) (Sequence Cycle3.scenario)
  = Ok Cycle3.scenario /\
  option_map fst
    (simulate 2 (Some (Sequence Cycle3.scenario)) "simultaneous" Cycle3.start)
  = Some (Ok [[0; 1; 0]; [0; 0; 1]]%Z).
Proof.
  assert (H1 : wf (self Cycle3.start)) by apply Cycle3Facts.engine_wf.
  assert (H2 : (0 <= 2)%Z) by lia.
  assert (H3 : broadcast_to (N (self Cycle3.start))
                 (Sequence Cycle3.scenario) = Ok Cycle3.scenario)
    by reflexivity.
  pose proof (simulate_simultaneous_orbit 2 (Sequence Cycle3.scenario)
                Cycle3.scenario Cycle3.start H1 H2 H3) as Hs.
  refine (conj H1 (conj H2 (conj H3 _))).
  cbn zeta in Hs. rewrite Hs. reflexivity.
Defined.

Lemma simulate_draws_witness :
  wf (self Cycle3.start) /\ (0 <= 4)%Z /\
  seedable (self Cycle3.start) None /\ recognized "sequential" /\
  ("sequential" = "sequential" -> 0 < N (self Cycle3.start)) /\
  exists trajectory w',
    simulate 4 None "sequential" Cycle3.start = Some (Ok trajectory, w') /\
    pos (np_random w') = 10.
Proof.
  assert (H1 : wf (self Cycle3.start)) by apply Cycle3Facts.engine_wf.
  assert (H2 : (0 <= 4)%Z) by lia.
  assert (H3 : seedable (self Cycle3.start) None) by (vm_compute; lia).
  assert (H4 : recognized "sequential") by (right; reflexivity).
  assert (H5 : "sequential" = "sequential" -> 0 < N (self Cycle3.start))
    by (intros _; vm_compute; lia).
  destruct (simulate_draws 4 None "sequential" Cycle3.start H1 H2 H3 H4 H5)
    as (trajectory & w' & Hs & _ & Hp).
  refine (conj H1 (conj H2 (conj H3 (conj H4 (conj H5 _))))).
  exists trajectory, w'. split; [exact Hs | exact Hp].
Defined.

Lemma simulate_sequential_local_witness :
  wf (self Cycle3.start) /\ (0 <= 4)%Z /\
  seedable (self Cycle3.start) None /\ 0 < N (self Cycle3.start) /\
  exists trajectory w',
    simulate 4 None "sequential" Cycle3.start = Some (Ok trajectory, w').
Proof.
  assert (H1 : wf (self Cycle3.start)) by apply Cycle3Facts.engine_wf.
  assert (H2 : (0 <= 4)%Z) by lia.
  assert (H3 : seedable (self Cycle3.start) None) by (vm_compute; lia).
  assert (H4 : 0 < N (self Cycle3.start)) by (vm_compute; lia).
  destruct (simulate_sequential_local 4 None Cycle3.start H1 H2 H3 H4)
    as (trajectory & w' & Hs & _).
  refine (conj H1 (conj H2 (conj H3 (conj H4 _)))).
  by exists trajectory, w'.
Defined.

Lemma simulate_fixed_point_witness :
  wf (self Cycle3.start) /\ (0 <= 3)%Z /\
  length [1; 1; 1]%Z = N (self Cycle3.start) /\ recognized "sequential" /\
  ("sequential" = "sequential" -> 0 < N (self Cycle3.start)) /\
  simultaneous_responses (with_indices (self Cycle3.start) [1; 1; 1]%Z)
  = [1; 1; 1]%Z /\
  exists w',
    simulate 3 (Some (Sequence [1; 1; 1]%Z)) "sequential" Cycle3.start
    = Some (Ok [[1; 1; 1]; [1; 1; 1]; [1; 1; 1]]%Z, w').
Proof.
  assert (H1 : wf (self Cycle3.start)) by apply Cycle3Facts.engine_wf.
  assert (H2 : (0 <= 3)%Z) by lia.
  assert (H3 : length [1; 1; 1]%Z = N (self Cycle3.start)) by reflexivity.
  assert (H4 : recognized "sequential") by (right; reflexivity).
  assert (H5 : "sequential" = "sequential" -> 0 < N (self Cycle3.start))
    by (intros _; vm_compute; lia).
  assert (H6 : simultaneous_responses
                 (with_indices (self Cycle3.start) [1; 1; 1]%Z)
               = [1; 1; 1]%Z) by reflexivity.
  destruct (simulate_fixed_point 3 [1; 1; 1]%Z "sequential" Cycle3.start
              H1 H2 H3 H4 H5 H6) as (w' & Hs & _).
  refine (conj H1 (conj H2 (conj H3 (conj H4 (conj H5 (conj H6 _)))))).
  exists w'. exact Hs.
Defined.

Lemma opponent_distribution_tally_witness :
  wf (self Cycle3.seeded) /\ adjacency_columns_valid (self Cycle3.seeded) /\
  2 < N (self Cycle3.seeded) /\ 1 < num_actions (self Cycle3.seeded) /\
  exists row,
    dot_toarray (adj_matrix (self Cycle3.seeded))
      (current_actions_mixed (self Cycle3.seeded)) !! 2 = Some row /\
    row !! 1 = Some 1%Z.
Proof.
  assert (H1 : wf (self Cycle3.seeded)) by apply Cycle3Facts.seeded_wf.
  pose proof Cycle3Facts.cycle_columns_valid as H2.
  assert (H3 : 2 < N (self Cycle3.seeded)) by (vm_compute; lia).
  assert (H4 : 1 < num_actions (self Cycle3.seeded)) by (vm_compute; lia).
  destruct (opponent_distribution_tally (self Cycle3.seeded) 2 1 H1 H2 H3 H4)
    as (row & Hrow & _ & Hk).
  refine (conj H1 (conj H2 (conj H3 (conj H4 _)))).
  exists row. split; [exact Hrow | exact Hk].
Defined.

Lemma sequential_matches_simultaneous_witness :
  wf (self Cycle3.seeded) /\ 0 < N (self Cycle3.seeded) /\
  exists x,
    current_actions (self (step "simultaneous" Cycle3.seeded)) !! 0 = Some x /\
    current_actions (self (step "sequential" Cycle3.seeded))
    = <[0 := x]> (current_actions (self Cycle3.seeded)).
Proof.
  assert (H1 : wf (self Cycle3.seeded)) by apply Cycle3Facts.seeded_wf.
  assert (H2 : 0 < N (self Cycle3.seeded)) by (vm_compute; lia).
  pose proof (sequential_matches_simultaneous Cycle3.seeded H1 H2) as Hs.
  exact (conj H1 (conj H2 Hs)).
Defined.

Lemma simulate_simultaneous_resume_witness :
  wf (self Cycle3.start) /\ (0 <= 1)%Z /\ (0 <= 2)%Z /\
  length Cycle3.scenario = N (self Cycle3.start) /\
  exists tr1 w1 tr2 w2,
    simulate 1 (Some (Sequence Cycle3.scenario)) "simultaneous" Cycle3.start
    = Some (Ok tr1, w1) /\
    simulate 2 (Some (Sequence (current_actions (self w1)))) "simultaneous" w1
    = Some (Ok tr2, w2) /\
    simulate (1 + 2) (Some (Sequence Cycle3.scenario)) "simultaneous"
      Cycle3.start
    = Some (Ok (tr1 ++ tr2), w2).
Proof.
  assert (H1 : wf (self Cycle3.start)) by apply Cycle3Facts.engine_wf.
  assert (H2 : (0 <= 1)%Z) by lia.
  assert (H3 : (0 <= 2)%Z) by lia.
  assert (H4 : length Cycle3.scenario = N (self Cycle3.start))
    by reflexivity.
  pose proof (simulate_simultaneous_resume 1 2 Cycle3.scenario Cycle3.start
                H1 H2 H3 H4) as Hs.
  exact (conj H1 (conj H2 (conj H3 (conj H4 Hs)))).
Defined.
